(** * Arkiv entity store, housekeeping sweep and change-data-capture stream

    A shallow embedding of the Arkiv parts of the op-geth fork.

    The code:
    - [common]: byte strings, the 32-byte [Hash], the 20-byte [Address],
      Go's [copy] and the big-endian codec of encoding/binary;
    - [entity]: the entity metadata record and its storage primitives
      (arkiv/storageutil/entity);
    - [types], [storagetx], [events]: the data that the event derivation
      reads and writes;
    - [housekeepingtx]: the per-block expiration sweep;
    - [dbevents]: the derivation of semantic operations from a block and the
      batch iterator that streams them.

    What the code relies on and what is not part of this tree:
    - the classes [External], [StateAccess], [ExpirationIndex], [Codec],
      [housekeepingtx.StateDB], [housekeepingtx.SlotUsageCounter] and
      [dbevents.ChainDB] are the interfaces of the packages that the code
      calls; every theorem holds for all their implementations;
    - [validation] and [entityexpiration] follow the specification;
    - [memory] and [examples] are an in-memory implementation of the
      interfaces and the data on which the code is run.

    [derived] and [sweeping] state what the loops compute.

    Unsigned 64-bit integers are [Z] with the wrap-around written out, bytes
    are [Byte.byte], word storage is a finite map from slot to word. *)

From Stdlib Require Import ZArith Lia String.
From Stdlib Require Import Strings.Byte.
From stdpp Require Import base option list countable strings gmap.

Local Open Scope Z_scope.

(** ** Results of fallible Go code

    A Go function returning [(T, error)] returns [Ok] or [Err]; an index out
    of range or a nil dereference is a run-time panic, kept apart from an
    error because no caller in this code recovers from it. *)

Inductive fmtarg : Type :=
| ArgBytes (b : list byte)
| ArgU64 (n : Z).

(** [Errorf fmt args] is [fmt.Errorf(fmt, args...)]; [Wrapf fmt args e] is
    the same with the error [e] wrapped through the verb [%w]. *)
Inductive error : Type :=
| Errorf (format : string) (args : list fmtarg)
| Wrapf (format : string) (args : list fmtarg) (wrapped : error).

Inductive result (A : Type) : Type :=
| Ok (a : A)
| Err (e : error)
| Panic.

Arguments Ok {A} a.
Arguments Err {A} e.
Arguments Panic {A}.

Definition is_Ok {A} (r : result A) : bool :=
  match r with Ok _ => true | _ => false end.

(** ** Bytes, hashes and addresses *)

Module common.

#[export] Instance byte_eq_dec : EqDecision byte := Byte.byte_eq_dec.

#[export] Instance byte_countable : Countable byte :=
  inj_countable Byte.to_N Byte.of_N Byte.of_to_N.

(** [byte(v)]: the low eight bits of an integer. *)
Definition byte_of_Z (v : Z) : byte :=
  match Byte.of_N (Z.to_N (v mod 256)) with
  | Some b => b
  | None => x00
  end.

(** [uint64(b)] of a byte. *)
Definition Z_of_byte (b : byte) : Z := Z.of_N (Byte.to_N b).

Definition uint64_modulus : Z := 2 ^ 64.

(** Wrap-around of uint64 arithmetic. *)
Definition u64 (v : Z) : Z := v mod uint64_modulus.

Definition HashLength : nat := 32.
Definition AddressLength : nat := 20.

(** [common.Hash] is [[32]byte], [common.Address] is [[20]byte]; the length
    is an invariant of the Go type, here a predicate. *)
Definition Hash : Type := list byte.
Definition Address : Type := list byte.

Definition is_hash (h : Hash) : Prop := length h = HashLength.
Definition is_address (a : Address) : Prop := length a = AddressLength.

(** [common.Hash{}] and [common.Address{}]. *)
Definition zeroHash : Hash := replicate HashLength x00.
Definition zeroAddress : Address := replicate AddressLength x00.

(** The builtin [copy(dst, src)]: overwrites the first
    [min(len(dst), len(src))] bytes of [dst]. *)
Definition copy (dst src : list byte) : list byte :=
  take (length dst) src ++ drop (length src) dst.

(** [binary.BigEndian.PutUint64(b, v)]: writes [b[0..7]]. Go panics when
    [len(b) < 8]; both call sites pass the last eight bytes of a 32-byte
    array, so the bounds check is not modelled. *)
Definition PutUint64 (b : list byte) (v : Z) : list byte :=
  copy b [ byte_of_Z (Z.shiftr v 56); byte_of_Z (Z.shiftr v 48);
           byte_of_Z (Z.shiftr v 40); byte_of_Z (Z.shiftr v 32);
           byte_of_Z (Z.shiftr v 24); byte_of_Z (Z.shiftr v 16);
           byte_of_Z (Z.shiftr v 8); byte_of_Z v ].

(** [uint64(b[i])] *)
Definition at_ (b : list byte) (i : nat) : Z := Z_of_byte (nth i b x00).

(** [binary.BigEndian.Uint64(b)]: reads [b[0..7]], same remark. *)
Definition Uint64 (b : list byte) : Z :=
  Z.lor (Z.lor (Z.lor (Z.lor (Z.lor (Z.lor (Z.lor
    (at_ b 7)
    (Z.shiftl (at_ b 6) 8))
    (Z.shiftl (at_ b 5) 16))
    (Z.shiftl (at_ b 4) 24))
    (Z.shiftl (at_ b 3) 32))
    (Z.shiftl (at_ b 2) 40))
    (Z.shiftl (at_ b 1) 48))
    (Z.shiftl (at_ b 0) 56).

(** [common.BytesToAddress(b)]: [SetBytes] crops [b] from the left when it
    is longer than an address and right-aligns it otherwise. *)
Definition BytesToAddress (b : list byte) : Address :=
  let b := if decide (AddressLength < length b)%nat
           then drop (length b - AddressLength) b else b in
  let a := zeroAddress in
  take (AddressLength - length b) a
    ++ copy (drop (AddressLength - length b) a) b.

(** [common.BytesToHash(b)], the same for 32 bytes. *)
Definition BytesToHash (b : list byte) : Hash :=
  let b := if decide (HashLength < length b)%nat
           then drop (length b - HashLength) b else b in
  let h := zeroHash in
  take (HashLength - length b) h
    ++ copy (drop (HashLength - length b) h) b.

End common.

Import common.

(** ** External capabilities

    Constants and black-box functions of packages that the Arkiv code
    imports: the processor address (arkiv/address), the log topics
    (arkiv/logs) and the one-way hash (crypto). *)

Class External : Type := {
  ArkivProcessorAddress : Address;
  ArkivEntityExpired : Hash;
  ArkivEntityCreated : Hash;
  (** [crypto.Keccak256Hash(data...)] of the concatenation of its arguments *)
  Keccak256Hash : list byte -> Hash
}.

(** [storageutil.StateAccess]: the Go interface with [GetState] and
    [SetState]; the receiver is mutated in Go and threaded here. *)
Class StateAccess (S : Type) : Type := {
  GetState : S -> Address -> Hash -> Hash;
  SetState : S -> Address -> Hash -> Hash -> S
}.

(** What the callers rely on: a word read back is the word last written to
    that slot, and a write leaves every other slot alone. *)
Class StateAccessLaws (S : Type) `{StateAccess S} : Prop := {
  GetState_SetState_eq : forall (s : S) a k v,
    GetState (SetState s a k v) a k = v;
  GetState_SetState_ne : forall (s : S) a k v a' k',
    (a, k) <> (a', k') -> GetState (SetState s a k v) a' k' = GetState s a' k'
}.

(** Package entityexpiration, whose source is not part of this tree: the
    three entry points that package entity and the housekeeping sweep call.
    An error is returned next to the state reached when it was raised. *)
Class ExpirationIndex (S : Type) : Type := {
  AddToEntitiesToExpireAtBlock : S -> Z -> Hash -> S * result unit;
  RemoveFromEntitiesToExpire : S -> Z -> Hash -> S * result unit;
  (** [slices.Collect(IteratorOfEntitiesToExpireAtBlock(access, n))] *)
  IteratorOfEntitiesToExpireAtBlock : S -> Z -> list Hash
}.

(** ** Package entity (arkiv/storageutil/entity) *)

Module entity.

Record EntityMetaData : Type := mkEntityMetaData {
  Owner : Address;
  ExpiresAtBlock : Z
}.

(** [func (emd *EntityMetaData) Marshal() common.Hash] *)
Definition Marshal (emd : EntityMetaData) : Hash :=
  let bytes := replicate 32 x00 in
  let bytes := copy bytes (Owner emd) in
  take 24 bytes ++ PutUint64 (drop 24 bytes) (ExpiresAtBlock emd).

(** [func (emd *EntityMetaData) Unmarshal(hash common.Hash)] *)
Definition Unmarshal (hash : Hash) : EntityMetaData :=
  {| Owner := BytesToAddress (take 20 hash);
     ExpiresAtBlock := Uint64 (drop 24 hash) |}.

(** [var EntityMetaDataSalt = []byte("arkivEntityMetaData")] *)
Definition EntityMetaDataSalt : list byte :=
  list_byte_of_string "arkivEntityMetaData".

Section WithState.
Context `{External} {S : Type} `{StateAccess S} `{ExpirationIndex S}.

(** The slot of the metadata word of [key]. *)
Definition metaSlot (key : Hash) : Hash :=
  Keccak256Hash (EntityMetaDataSalt ++ key).

(** [GetEntityMetaData] as in get_entity_metadata.go: the word is
    decoded whatever it holds and the error is always nil. *)
Definition GetEntityMetaData (access : S) (key : Hash)
  : result EntityMetaData :=
  let value := GetState access ArkivProcessorAddress (metaSlot key) in
  Ok (Unmarshal value).

(** The other revision of [GetEntityMetaData], the one that follows
    [Delete] in delete_entity_metadata.go: an all-zero word is an error. *)
Definition GetEntityMetaData_checked (access : S) (key : Hash)
  : result EntityMetaData :=
  let value := GetState access ArkivProcessorAddress (metaSlot key) in
  if decide (value = zeroHash)
  then Err (Errorf "failed to retrieve entity metadata for key %s"
                   [ArgBytes key])
  else Ok (Unmarshal value).

(** [StoreEntityMetaData]; its error is always nil. *)
Definition StoreEntityMetaData (access : S) (key : Hash)
    (emd : EntityMetaData) : S * result unit :=
  (SetState access ArkivProcessorAddress (metaSlot key) (Marshal emd),
   Ok tt).

(** [DeleteEntityMetadata] *)
Definition DeleteEntityMetadata (access : S) (key : Hash) : S :=
  SetState access ArkivProcessorAddress (metaSlot key) zeroHash.

(** [Store]; [sender] and [payload] are not used by the body. *)
Definition Store (access : S) (key : Hash) (sender : Address)
    (emd : EntityMetaData) (payload : list byte) : S * result unit :=
  match StoreEntityMetaData access key emd with
  | (access, Err err) =>
      (access, Err (Wrapf "failed to store entity meta data: %w" [] err))
  | (access, Panic) => (access, Panic)
  | (access, Ok _) =>
    match AddToEntitiesToExpireAtBlock access (ExpiresAtBlock emd) key with
    | (access, Err err) =>
        (access,
         Err (Wrapf "failed to add entity to entities to expire: %w" [] err))
    | (access, Panic) => (access, Panic)
    | (access, Ok _) => (access, Ok tt)
    end
  end.

(** [Delete], over a metadata reader [get]: the package has one
    [GetEntityMetaData], and this tree has two revisions of it. *)
Definition Delete_with (get : S -> Hash -> result EntityMetaData)
    (access : S) (toDelete : Hash) : S * result Address :=
  match get access toDelete with
  | Err err =>
      (access, Err (Wrapf "failed to get entity meta data: %w" [] err))
  | Panic => (access, Panic)
  | Ok md =>
    match RemoveFromEntitiesToExpire access (ExpiresAtBlock md) toDelete with
    | (access, Err err) =>
        (access,
         Err (Wrapf "failed to remove entity from entities to expire: %w"
                    [] err))
    | (access, Panic) => (access, Panic)
    | (access, Ok _) =>
        let access := DeleteEntityMetadata access toDelete in
        (access, Ok (Owner md))
    end
  end.

(** [Delete] with the reader of get_entity_metadata.go. *)
Definition Delete : S -> Hash -> S * result Address :=
  Delete_with GetEntityMetaData.

(** [ExtendBTL]: returns the expiry the entity had before the call. *)
Definition ExtendBTL_with (get : S -> Hash -> result EntityMetaData)
    (access : S) (entityKey : Hash) (numberOfBlocks : Z)
  : S * result (Z * Address) :=
  match get access entityKey with
  | Err err => (access, Err err)
  | Panic => (access, Panic)
  | Ok entity =>
    match RemoveFromEntitiesToExpire access (ExpiresAtBlock entity)
            entityKey with
    | (access, Err err) =>
        (access,
         Err (Wrapf "failed to remove from entities to expire at block %d: %w"
                    [ArgU64 (ExpiresAtBlock entity)] err))
    | (access, Panic) => (access, Panic)
    | (access, Ok _) =>
      let oldExpiresAtBlock := ExpiresAtBlock entity in
      let entity := {| Owner := Owner entity;
                       ExpiresAtBlock :=
                         u64 (ExpiresAtBlock entity + numberOfBlocks) |} in
      match AddToEntitiesToExpireAtBlock access (ExpiresAtBlock entity)
              entityKey with
      | (access, Err err) =>
          (access,
           Err (Wrapf "failed to add to entities to expire at block %d: %w"
                      [ArgU64 (ExpiresAtBlock entity)] err))
      | (access, Panic) => (access, Panic)
      | (access, Ok _) =>
        match StoreEntityMetaData access entityKey entity with
        | (access, Err err) =>
            (access,
             Err (Wrapf "failed to store entity meta data: %w" [] err))
        | (access, Panic) => (access, Panic)
        | (access, Ok _) =>
            (access, Ok (oldExpiresAtBlock, Owner entity))
        end
      end
    end
  end.

Definition ExtendBTL : S -> Hash -> Z -> S * result (Z * Address) :=
  ExtendBTL_with GetEntityMetaData.

End WithState.

End entity.

(** ** Logs, receipts, transactions and blocks (core/types) *)

Module types.

Record Log : Type := mkLog {
  LogAddress : Address;
  Topics : list Hash;
  LogData : list byte;
  LogBlockNumber : Z
}.

Definition ReceiptStatusFailed : Z := 0.
Definition ReceiptStatusSuccessful : Z := 1.

Record Receipt : Type := mkReceipt {
  Status : Z;
  Logs : list Log
}.

(** A transaction: its recipient ([nil] for a contract creation), its
    payload, and the rest of its signed content. *)
Record Transaction : Type := mkTransaction {
  To : option Address;
  Data : list byte;
  Rest : list byte
}.

Record Block : Type := mkBlock {
  NumberU64 : Z;
  Time : Z;
  BlockHash : Hash;
  Transactions : list Transaction
}.

End types.

(** ** The housekeeping sweep (arkiv/housekeepingtx) *)

Module housekeepingtx.
Import types.

(** The part of [vm.StateDB] that [ExecuteTransaction] calls. *)
Class StateDB (D : Type) : Type := {
  Exist : D -> Address -> bool;
  CreateAccount : D -> Address -> D;
  CreateContract : D -> Address -> D;
  SetNonce : D -> Address -> Z -> D
}.

(** [storageaccounting.SlotUsageCounter], whose source is not part of this
    tree: a [StateAccess] built over the state database, and the write-back
    of its counter. *)
Class SlotUsageCounter (D S : Type) : Type := {
  NewSlotUsageCounter : D -> S;
  UpdateUsedSlotsForGolemBase : S -> S
}.

(** [func addressToHash(a common.Address) common.Hash] *)
Definition addressToHash (a : Address) : Hash :=
  let h := zeroHash in
  take 12 h ++ copy (drop 12 h) a.

Section WithState.
Context `{External} {D S : Type} `{StateDB D} `{StateAccess S}
        `{ExpirationIndex S} `{SlotUsageCounter D S}.

(** The log appended by the closure [deleteEntity]. *)
Definition expiredLog (blockNumber : Z) (toDelete : Hash)
    (owner : Address) : Log :=
  {| LogAddress := ArkivProcessorAddress;
     Topics := [ArkivEntityExpired; toDelete; addressToHash owner];
     LogData := toDelete;
     LogBlockNumber := blockNumber |}.

(** The closure [deleteEntity]; [logs] is the captured slice. *)
Definition deleteEntity (blockNumber : Z) (st : S) (logs : list Log)
    (toDelete : Hash) : S * list Log * result unit :=
  match entity.Delete st toDelete with
  | (st, Err err) =>
      (st, logs, Err (Wrapf "failed to delete entity: %w" [] err))
  | (st, Panic) => (st, logs, Panic)
  | (st, Ok owner) =>
      (st, logs ++ [expiredLog blockNumber toDelete owner], Ok tt)
  end.

(** [for _, key := range toDelete { ... }] *)
Fixpoint deleteLoop (blockNumber : Z) (toDelete : list Hash) (st : S)
    (logs : list Log) : S * result (list Log) :=
  match toDelete with
  | [] => (st, Ok logs)
  | key :: rest =>
    match deleteEntity blockNumber st logs key with
    | (st, _, Err err) =>
        (st, Err (Wrapf "failed to delete entity %s: %w" [ArgBytes key] err))
    | (st, _, Panic) => (st, Panic)
    | (st, logs, Ok _) => deleteLoop blockNumber rest st logs
    end
  end.

(** The account set-up at the head of [ExecuteTransaction]. *)
Definition ensureProcessorAccount (db : D) : D :=
  if Exist db ArkivProcessorAddress then db
  else
    let db := CreateAccount db ArkivProcessorAddress in
    let db := CreateContract db ArkivProcessorAddress in
    SetNonce db ArkivProcessorAddress 1.

(** [ExecuteTransaction]: the state reached and the returned pair
    [(logs, err)]. The deferred function runs when [err] is nil. *)
Definition ExecuteTransaction (blockNumber : Z) (txHash : Hash) (db : D)
  : S * result (list Log) :=
  let db := ensureProcessorAccount db in
  let logs := [] in
  let st := NewSlotUsageCounter db in
  let toDelete := IteratorOfEntitiesToExpireAtBlock st blockNumber in
  match deleteLoop blockNumber toDelete st logs with
  | (st, Ok logs) => (UpdateUsedSlotsForGolemBase st, Ok logs)
  | (st, r) => (st, r)
  end.

End WithState.

End housekeepingtx.

(** ** The storage transaction (arkiv/storagetx)

    The types are read off their uses in [blockToEvents]; the decoder is a
    capability of class [Codec]. *)

Module storagetx.

Record StringAnnotation : Type := mkStringAnnotation {
  SKey : string;
  SValue : string
}.

Record NumericAnnotation : Type := mkNumericAnnotation {
  NKey : string;
  NValue : Z
}.

Record ArkivCreate : Type := mkArkivCreate {
  CBTL : Z;
  CContentType : string;
  CPayload : list byte;
  CStringAnnotations : list StringAnnotation;
  CNumericAnnotations : list NumericAnnotation
}.

Record ArkivUpdate : Type := mkArkivUpdate {
  UEntityKey : Hash;
  UContentType : string;
  UBTL : Z;
  UPayload : list byte;
  UStringAnnotations : list StringAnnotation;
  UNumericAnnotations : list NumericAnnotation
}.

Record ExtendBTL : Type := mkExtendBTL {
  XEntityKey : Hash;
  NumberOfBlocks : Z
}.

Record ArkivChangeOwner : Type := mkArkivChangeOwner {
  OEntityKey : Hash;
  NewOwner : Address
}.

Record ArkivTransaction : Type := mkArkivTransaction {
  Create : list ArkivCreate;
  Update : list ArkivUpdate;
  Extend : list ExtendBTL;
  ChangeOwner : list ArkivChangeOwner;
  Delete : list Hash
}.

(** The number of operations of a transaction, over its five lists. *)
Definition operationCount (tx : ArkivTransaction) : nat :=
  (length (Create tx) + length (Update tx) + length (Extend tx)
   + length (ChangeOwner tx) + length (Delete tx))%nat.

End storagetx.

(** [storagetx.UnpackArkivTransaction] and the recovery of the sender,
    [types.LatestSignerForChainID(tx.ChainId()).Sender(tx)]. *)
Class Codec : Type := {
  UnpackArkivTransaction : list byte -> result storagetx.ArkivTransaction;
  Sender : types.Transaction -> result Address
}.

(** ** The derived event schema (arkiv-events/events) *)

Module events.

Record OPCreate : Type := mkOPCreate {
  CKey : Hash;
  CContentType : string;
  CBTL : Z;
  COwner : Address;
  CContent : list byte;
  CStringAttributes : gmap string string;
  CNumericAttributes : gmap string Z
}.

Record OPUpdate : Type := mkOPUpdate {
  UKey : Hash;
  UContentType : string;
  UBTL : Z;
  UOwner : Address;
  UContent : list byte;
  UStringAttributes : gmap string string;
  UNumericAttributes : gmap string Z
}.

Record OPExtendBTL : Type := mkOPExtendBTL {
  XKey : Hash;
  XBTL : Z
}.

Record OPChangeOwner : Type := mkOPChangeOwner {
  OKey : Hash;
  OOwner : Address
}.

(** A Go struct with one pointer per variant; [None] is the nil pointer. *)
Record Operation : Type := mkOperation {
  TxIndex : Z;
  OpIndex : Z;
  Create : option OPCreate;
  Update : option OPUpdate;
  ExtendBTL : option OPExtendBTL;
  ChangeOwner : option OPChangeOwner;
  Delete : option Hash;
  Expire : option (list byte)
}.

Record Block : Type := mkBlock {
  Number : Z;
  Operations : list Operation
}.

Record BlockBatch : Type := mkBlockBatch {
  Blocks : list Block
}.

End events.

(** ** Event derivation and the batch iterator (arkiv/dbevents) *)

Module dbevents.
Import types.

(** The part of core/rawdb that the iterator reads; [None] is Go's nil. *)
Class ChainDB (DB CC : Type) : Type := {
  ReadCanonicalHash : DB -> Z -> Hash;
  ReadBlock : DB -> Hash -> Z -> option Block;
  ReadReceipts : DB -> Hash -> Z -> Z -> CC -> option (list Receipt)
}.

(** [stringAnnotationsToMap]: a later pair overwrites an earlier one. *)
Fixpoint stringAnnotationsToMap_from (annotationsMap : gmap string string)
    (annotations : list storagetx.StringAnnotation) : gmap string string :=
  match annotations with
  | [] => annotationsMap
  | annotation :: rest =>
      stringAnnotationsToMap_from
        (<[storagetx.SKey annotation := storagetx.SValue annotation]>
           annotationsMap) rest
  end.

Definition stringAnnotationsToMap
    (annotations : list storagetx.StringAnnotation) : gmap string string :=
  stringAnnotationsToMap_from ∅ annotations.

(** [numericAnnotationsToMap] *)
Fixpoint numericAnnotationsToMap_from (annotationsMap : gmap string Z)
    (annotations : list storagetx.NumericAnnotation) : gmap string Z :=
  match annotations with
  | [] => annotationsMap
  | annotation :: rest =>
      numericAnnotationsToMap_from
        (<[storagetx.NKey annotation := storagetx.NValue annotation]>
           annotationsMap) rest
  end.

Definition numericAnnotationsToMap
    (annotations : list storagetx.NumericAnnotation) : gmap string Z :=
  numericAnnotationsToMap_from ∅ annotations.

(** An [events.Operation] literal with the two indices set and every
    variant pointer nil. *)
Definition operation (txIndex opIndex : Z) : events.Operation :=
  {| events.TxIndex := txIndex; events.OpIndex := opIndex;
     events.Create := None; events.Update := None;
     events.ExtendBTL := None; events.ChangeOwner := None;
     events.Delete := None; events.Expire := None |}.

Definition withCreate (o : events.Operation) (c : events.OPCreate) :=
  {| events.TxIndex := events.TxIndex o; events.OpIndex := events.OpIndex o;
     events.Create := Some c; events.Update := events.Update o;
     events.ExtendBTL := events.ExtendBTL o;
     events.ChangeOwner := events.ChangeOwner o;
     events.Delete := events.Delete o; events.Expire := events.Expire o |}.

Definition withUpdate (o : events.Operation) (u : events.OPUpdate) :=
  {| events.TxIndex := events.TxIndex o; events.OpIndex := events.OpIndex o;
     events.Create := events.Create o; events.Update := Some u;
     events.ExtendBTL := events.ExtendBTL o;
     events.ChangeOwner := events.ChangeOwner o;
     events.Delete := events.Delete o; events.Expire := events.Expire o |}.

Definition withExtendBTL (o : events.Operation) (x : events.OPExtendBTL) :=
  {| events.TxIndex := events.TxIndex o; events.OpIndex := events.OpIndex o;
     events.Create := events.Create o; events.Update := events.Update o;
     events.ExtendBTL := Some x;
     events.ChangeOwner := events.ChangeOwner o;
     events.Delete := events.Delete o; events.Expire := events.Expire o |}.

Definition withChangeOwner (o : events.Operation)
    (c : events.OPChangeOwner) :=
  {| events.TxIndex := events.TxIndex o; events.OpIndex := events.OpIndex o;
     events.Create := events.Create o; events.Update := events.Update o;
     events.ExtendBTL := events.ExtendBTL o;
     events.ChangeOwner := Some c;
     events.Delete := events.Delete o; events.Expire := events.Expire o |}.

Definition withDelete (o : events.Operation) (d : Hash) :=
  {| events.TxIndex := events.TxIndex o; events.OpIndex := events.OpIndex o;
     events.Create := events.Create o; events.Update := events.Update o;
     events.ExtendBTL := events.ExtendBTL o;
     events.ChangeOwner := events.ChangeOwner o;
     events.Delete := Some d; events.Expire := events.Expire o |}.

Definition withExpire (o : events.Operation) (e : list byte) :=
  {| events.TxIndex := events.TxIndex o; events.OpIndex := events.OpIndex o;
     events.Create := events.Create o; events.Update := events.Update o;
     events.ExtendBTL := events.ExtendBTL o;
     events.ChangeOwner := events.ChangeOwner o;
     events.Delete := events.Delete o; events.Expire := Some e |}.

(** [for opIndex, x := range xs { ops = append(ops, f(opIndex, x)) }],
    entered with the index at [opIndex]. *)
Fixpoint rangeAppend {A : Type} (f : nat -> A -> events.Operation)
    (opIndex : nat) (xs : list A) (ops : list events.Operation)
  : list events.Operation :=
  match xs with
  | [] => ops
  | x :: rest => rangeAppend f (S opIndex) rest (ops ++ [f opIndex x])
  end.

Section WithExternal.
Context `{External} `{Codec}.

(** The test of the first loop on a log with at least one topic. *)
Definition isExpirationLog (log : Log) : bool :=
  match Topics log with
  | [] => false
  | topic0 :: _ =>
      bool_decide (topic0 = ArkivEntityExpired)
      && bool_decide (32 <= length (LogData log))%nat
  end.

(** The first loop of [blockToEvents], over the logs of the first
    receipt; [opIndex] is the index of the log in that slice. *)
Fixpoint expireLoop (opIndex : nat) (logs : list Log)
    (ops : list events.Operation) : list events.Operation :=
  match logs with
  | [] => ops
  | log :: rest =>
    match Topics log with
    | [] => expireLoop (S opIndex) rest ops
    | topic0 :: _ =>
      if bool_decide (topic0 = ArkivEntityExpired)
         && bool_decide (32 <= length (LogData log))%nat
      then
        let entityKey := BytesToHash (take 32 (LogData log)) in
        let expire := entityKey in
        expireLoop (S opIndex) rest
          (ops ++ [withExpire (operation 0 (Z.of_nat opIndex)) expire])
      else expireLoop (S opIndex) rest ops
    end
  end.

(** [createdEntities]: indexing [Topics[0]] or [Topics[1]] of a log that
    lacks them panics. *)
Fixpoint createdEntities_from (logs : list Log) (entities : list Hash)
  : result (list Hash) :=
  match logs with
  | [] => Ok entities
  | log :: rest =>
    match Topics log with
    | [] => Panic
    | topic0 :: more =>
      if bool_decide (topic0 = ArkivEntityCreated) then
        match more with
        | [] => Panic
        | entityKey :: _ => createdEntities_from rest (entities ++ [entityKey])
        end
      else createdEntities_from rest entities
    end
  end.

Definition createdEntities (r : Receipt) : result (list Hash) :=
  createdEntities_from (Logs r) [].

Definition createOperation (i : nat) (from : Address) (opIndex : nat)
    (createdEntityKey : Hash) (create : storagetx.ArkivCreate)
  : events.Operation :=
  withCreate (operation (Z.of_nat i) (Z.of_nat opIndex))
    {| events.CKey := createdEntityKey;
       events.CContentType := storagetx.CContentType create;
       events.CBTL := storagetx.CBTL create;
       events.COwner := from;
       events.CContent := storagetx.CPayload create;
       events.CStringAttributes :=
         stringAnnotationsToMap (storagetx.CStringAnnotations create);
       events.CNumericAttributes :=
         numericAnnotationsToMap (storagetx.CNumericAnnotations create) |}.

(** The loop over [atx.Create]: [createdEntities[0]] panics once the
    creation logs are used up. *)
Fixpoint createLoop (i : nat) (from : Address) (opIndex : nat)
    (creates : list storagetx.ArkivCreate) (createdEntities : list Hash)
    (ops : list events.Operation) : result (list events.Operation) :=
  match creates with
  | [] => Ok ops
  | create :: rest =>
    match createdEntities with
    | [] => Panic
    | createdEntityKey :: createdEntities =>
        createLoop i from (S opIndex) rest createdEntities
          (ops ++ [createOperation i from opIndex createdEntityKey create])
    end
  end.

Definition updateOperation (i : nat) (from : Address) (opIndex : nat)
    (update : storagetx.ArkivUpdate) : events.Operation :=
  withUpdate (operation (Z.of_nat i) (Z.of_nat opIndex))
    {| events.UKey := storagetx.UEntityKey update;
       events.UContentType := storagetx.UContentType update;
       events.UBTL := storagetx.UBTL update;
       events.UOwner := from;
       events.UContent := storagetx.UPayload update;
       events.UStringAttributes :=
         stringAnnotationsToMap (storagetx.UStringAnnotations update);
       events.UNumericAttributes :=
         numericAnnotationsToMap (storagetx.UNumericAnnotations update) |}.

Definition extendOperation (i : nat) (opIndex : nat)
    (extendBTL : storagetx.ExtendBTL) : events.Operation :=
  withExtendBTL (operation (Z.of_nat i) (Z.of_nat opIndex))
    {| events.XKey := storagetx.XEntityKey extendBTL;
       events.XBTL := storagetx.NumberOfBlocks extendBTL |}.

Definition changeOwnerOperation (i : nat) (opIndex : nat)
    (changeOwner : storagetx.ArkivChangeOwner) : events.Operation :=
  withChangeOwner (operation (Z.of_nat i) (Z.of_nat opIndex))
    {| events.OKey := storagetx.OEntityKey changeOwner;
       events.OOwner := storagetx.NewOwner changeOwner |}.

Definition deleteOperation (i : nat) (opIndex : nat) (delete : Hash)
  : events.Operation :=
  withDelete (operation (Z.of_nat i) (Z.of_nat opIndex)) delete.

(** The body of the loop over the transactions once the transaction is
    known to be a successful one addressed to the processor: the five
    loops over the decoded operations, appending to [ops]. *)
Definition transactionOperations (i : nat) (from : Address)
    (atx : storagetx.ArkivTransaction) (created : list Hash)
    (ops : list events.Operation) : result (list events.Operation) :=
  match createLoop i from 0 (storagetx.Create atx) created ops with
  | Ok ops =>
      let ops := rangeAppend (updateOperation i from) 0
                   (storagetx.Update atx) ops in
      let ops := rangeAppend (extendOperation i) 0
                   (storagetx.Extend atx) ops in
      let ops := rangeAppend (changeOwnerOperation i) 0
                   (storagetx.ChangeOwner atx) ops in
      let ops := rangeAppend (deleteOperation i) 0
                   (storagetx.Delete atx) ops in
      Ok ops
  | r => r
  end.

(** [for i, transaction := range rawBlock.Transactions() { ... }] *)
Fixpoint transactionLoop (i : nat) (transactions : list Transaction)
    (rawReceipts : list Receipt) (ops : list events.Operation)
  : result (list events.Operation) :=
  match transactions with
  | [] => Ok ops
  | transaction :: rest =>
    match To transaction with
    | None => transactionLoop (S i) rest rawReceipts ops
    | Some transactionTo =>
      if bool_decide (transactionTo <> ArkivProcessorAddress)
      then transactionLoop (S i) rest rawReceipts ops
      else
        match rawReceipts !! i with
        | None => Panic
        | Some receipt =>
          if bool_decide (Status receipt <> ReceiptStatusSuccessful)
          then transactionLoop (S i) rest rawReceipts ops
          else
            match UnpackArkivTransaction (Data transaction) with
            | Err err =>
                Err (Wrapf "failed to unpack arkiv transaction: %w" [] err)
            | Panic => Panic
            | Ok atx =>
              match Sender transaction with
              | Err err =>
                  Err (Wrapf "failed to get sender from transaction: %w"
                             [] err)
              | Panic => Panic
              | Ok from =>
                match createdEntities receipt with
                | Ok created =>
                  match transactionOperations i from atx created ops with
                  | Ok ops => transactionLoop (S i) rest rawReceipts ops
                  | r => r
                  end
                | Err err => Err err
                | Panic => Panic
                end
              end
            end
        end
    end
  end.

(** [blockToEvents] *)
Definition blockToEvents (rawBlock : Block) (rawReceipts : list Receipt)
  : result events.Block :=
  match rawReceipts with
  | [] => Ok {| events.Number := NumberU64 rawBlock;
                events.Operations := [] |}
  | firstReceipt :: _ =>
    let ops := expireLoop 0 (Logs firstReceipt) [] in
    match transactionLoop 0 (Transactions rawBlock) rawReceipts ops with
    | Ok ops => Ok {| events.Number := NumberU64 rawBlock;
                      events.Operations := ops |}
    | Err err => Err err
    | Panic => Panic
    end
  end.

End WithExternal.

(** *** The batch iterator (chain_batch_iterator.go)

    The producer side ([onNewHead]) overwrites one slot with the latest
    head and signals; the consumer side waits until the slot is set, takes
    the head number out of it and clears it. One pass through the body of
    the [for] loop is therefore a function of the head number taken, of the
    database as it is during the pass, and of the variable [lastBlock]. *)

Section WithChain.
Context `{External} `{Codec} {DB CC : Type} `{ChainDB DB CC}.

(** The body of the loop [for i := range batchSize] at one height:
    [Ok (Some b)] when the block [b] is appended to the batch, [Ok None]
    at each of its four [return] statements, [Panic] when the block read
    first is nil, since [bl.NumberU64()] is called before any nil check. *)
Definition readHeight (db : DB) (chainConfig : CC) (blockNumber : Z)
  : result (option events.Block) :=
  let hash := ReadCanonicalHash db blockNumber in
  if bool_decide (hash = zeroHash) then Ok None
  else
    match ReadBlock db hash blockNumber with
    | None => Panic
    | Some bl =>
      match ReadReceipts db hash (NumberU64 bl) (Time bl) chainConfig with
      | None => Ok None
      | Some receiepts =>
        match ReadBlock db (BlockHash bl) (NumberU64 bl) with
        | None => Ok None
        | Some block =>
          match blockToEvents block receiepts with
          | Ok batchBlock => Ok (Some batchBlock)
          | Err _ => Ok None
          | Panic => Panic
          end
        end
      end
    end.

(** The loop [for i := range batchSize] inside the anonymous function;
    [n] counts the iterations left and [i] is the loop variable. A
    [return] leaves the anonymous function with the blocks appended so
    far still in [batch.Batch.Blocks]. *)
Fixpoint readLoop (db : DB) (chainConfig : CC) (lastBlock : Z)
    (n : nat) (i : Z) (blocks : list events.Block)
  : result (list events.Block) :=
  match n with
  | O => Ok blocks
  | Datatypes.S n =>
    let blockNumber := u64 (u64 (lastBlock + i) + 1) in
    match readHeight db chainConfig blockNumber with
    | Ok (Some batchBlock) =>
        readLoop db chainConfig lastBlock n (i + 1) (blocks ++ [batchBlock])
    | Ok None => Ok blocks
    | Err err => Err err
    | Panic => Panic
    end
  end.

(** The anonymous function called at the top of each pass, after the
    wait: the value of [batch.Batch.Blocks] when it returns. *)
Definition readBatch (db : DB) (chainConfig : CC) (lastBlock : Z)
    (newBlockNumber : Z) : result (list events.Block) :=
  if bool_decide (newBlockNumber <= lastBlock) then Ok []
  else
    let batchSize := Z.min 100 (u64 (newBlockNumber - lastBlock)) in
    readLoop db chainConfig lastBlock (Z.to_nat batchSize) 0 [].

(** What one pass does after the wait. *)
Inductive Pass : Type :=
| PassPanic
| PassContinue                       (* [continue]: nothing is yielded *)
| PassYield (batch : events.BlockBatch) (lastBlock : Z).

(** One pass through the body of the [for] loop, up to the call of
    [yield]: the batch handed to [yield] and the new [lastBlock]. *)
Definition pass (db : DB) (chainConfig : CC) (lastBlock : Z)
    (newBlockNumber : Z) : Pass :=
  match readBatch db chainConfig lastBlock newBlockNumber with
  | Ok blocks =>
    match last blocks with
    | None => PassContinue
    | Some final =>
        PassYield {| events.Blocks := blocks |} (events.Number final)
    end
  | _ => PassPanic
  end.

(** The iterator run over a finite sequence of wake-ups, each with the
    database and chain configuration of that moment and the head number
    taken from the slot; [yield] is the consumer. The result is the
    sequence of batches handed to [yield] and the final [lastBlock]. *)
Fixpoint batchIterator (yield : events.BlockBatch -> bool)
    (lastBlock : Z) (wakeups : list (DB * CC * Z))
  : result (list events.BlockBatch * Z) :=
  match wakeups with
  | [] => Ok ([], lastBlock)
  | (db, chainConfig, newBlockNumber) :: rest =>
    match pass db chainConfig lastBlock newBlockNumber with
    | PassPanic => Panic
    | PassContinue => batchIterator yield lastBlock rest
    | PassYield batch lastBlock =>
      if yield batch then
        match batchIterator yield lastBlock rest with
        | Ok (batches, lastBlock) => Ok (batch :: batches, lastBlock)
        | r => r
        end
      else Ok ([batch], lastBlock)
    end
  end.

End WithChain.

End dbevents.

(** ** Validation of a storage transaction

    The decoder and validator of package storagetx are not part of this
    tree; its feature file expects a transaction with 2001 operations to be
    refused with the message "number of operations is greater than 1000". *)

Module validation.
Import storagetx.

Inductive ValidationError : Type :=
| DecodeError
| OperationCountExceeded (count : nat).

Definition MaxOperations : nat := 1000.

(** Modelled from the spec: the validator of package storagetx, missing
    from this tree. "Total operation count ≤ 1000, else reject with
    OperationCountExceeded and the attempted count." *)
Definition Validate (tx : ArkivTransaction) : option ValidationError :=
  if bool_decide (operationCount tx <= MaxOperations)%nat then None
  else Some (OperationCountExceeded (operationCount tx)).

(** Modelled from the spec: the processing of a raw payload, missing from
    this tree. "Decodes a raw payload into a StorageTransaction.
    Validation, performed before any mutation (all-or-nothing)"; an
    undecodable payload is "rejected outright (DecodeError) with no partial
    effect". [decode] is the codec and [apply] the execution of a validated
    transaction, both left open. *)
Definition Process {S R : Type}
    (decode : list byte -> option ArkivTransaction)
    (apply : ArkivTransaction -> S -> S * R)
    (payload : list byte) (state : S) : S * (ValidationError + R) :=
  match decode payload with
  | None => (state, inl DecodeError)
  | Some tx =>
    match Validate tx with
    | Some e => (state, inl e)
    | None => let (state, r) := apply tx state in (state, inr r)
    end
  end.

End validation.

(** ** The expiration index as the specification describes it

    Package entityexpiration is not part of this tree. The theorems below
    hold for any implementation of [ExpirationIndex]; this one is used to
    run the code on concrete states. *)

Module entityexpiration.

Section WithState.
Context `{External} {S : Type} `{StateAccess S}.

Definition HeadSalt : list byte := list_byte_of_string "arkivExpirationHead".
Definition PrevSalt : list byte := list_byte_of_string "arkivExpirationPrev".
Definition NextSalt : list byte := list_byte_of_string "arkivExpirationNext".

(** Modelled from the spec: the slot keys of the index, missing from
    this tree. "Slot keys for metadata, expiration nodes, and bucket
    heads must each be derived through a distinct one-way hash salt."
    The null sentinel is the all-zero word, which an unset slot reads
    as. *)
Definition headSlot (height : Z) : Hash :=
  Keccak256Hash (HeadSalt ++ PutUint64 (replicate 8 x00) height).
Definition prevSlot (key : Hash) : Hash := Keccak256Hash (PrevSalt ++ key).
Definition nextSlot (key : Hash) : Hash := Keccak256Hash (NextSalt ++ key).

Definition get (s : S) (slot : Hash) : Hash :=
  GetState s ArkivProcessorAddress slot.
Definition set (s : S) (slot : Hash) (word : Hash) : S :=
  SetState s ArkivProcessorAddress slot word.

(** Modelled from the spec: [Add(height, key)], missing from this tree.
    "If the bucket head for height is the null sentinel, set head=key
    with node{prev:null,next:null}; otherwise link key as new head:
    node(key)={prev:null,next:oldHead}, node(oldHead).prev=key,
    head=key." *)
Definition Add (s : S) (height : Z) (key : Hash) : S :=
  let oldHead := get s (headSlot height) in
  if bool_decide (oldHead = zeroHash) then
    let s := set s (headSlot height) key in
    let s := set s (prevSlot key) zeroHash in
    set s (nextSlot key) zeroHash
  else
    let s := set s (prevSlot key) zeroHash in
    let s := set s (nextSlot key) oldHead in
    let s := set s (prevSlot oldHead) key in
    set s (headSlot height) key.

(** Modelled from the spec: [Remove(height, key)], missing from this
    tree. "Read node(key); if node.prev is set, node(node.prev).next =
    node.next, else set the height's head = node.next; if node.next is
    set, node(node.next).prev = node.prev; clear node(key)'s storage." *)
Definition Remove (s : S) (height : Z) (key : Hash) : S :=
  let prev := get s (prevSlot key) in
  let next := get s (nextSlot key) in
  let s := if bool_decide (prev <> zeroHash)
           then set s (nextSlot prev) next
           else set s (headSlot height) next in
  let s := if bool_decide (next <> zeroHash)
           then set s (prevSlot next) prev
           else s in
  let s := set s (prevSlot key) zeroHash in
  set s (nextSlot key) zeroHash.

(** Modelled from the spec: [Sweep(height)], missing from this tree.
    "Produces a lazy, finite sequence by following next pointers
    starting at the height's head." [fuel] bounds the number of nodes
    followed. *)
Fixpoint sweepFrom (fuel : nat) (s : S) (cur : Hash) : list Hash :=
  match fuel with
  | O => []
  | Datatypes.S fuel =>
      if bool_decide (cur = zeroHash) then []
      else cur :: sweepFrom fuel s (get s (nextSlot cur))
  end.

Definition Sweep (fuel : nat) (s : S) (height : Z) : list Hash :=
  sweepFrom fuel s (get s (headSlot height)).

End WithState.

End entityexpiration.

(** ** An in-memory world

    Instances of the interfaces above on which the code can be evaluated:
    word storage as a finite map, the expiration index of the specification,
    a collision-free stand-in for the hash, a decoder for two payloads and a
    chain database holding empty blocks up to a given height. *)

Module memory.
Import types.

(** The hash is the identity on its input: distinct inputs give distinct
    slots, which is all the code asks of it. *)
#[export] Instance external : External := {|
  ArkivProcessorAddress :=
    replicate 15 x00 ++ [x61; x72; x6b; x69; x76];
  ArkivEntityExpired := replicate 31 x00 ++ [xee];
  ArkivEntityCreated := replicate 31 x00 ++ [xcc];
  Keccak256Hash := fun data => data
|}.

(** The accounts with their nonces, and the storage words. *)
Record MemDB : Type := mkMemDB {
  accounts : gmap Address Z;
  storage : gmap (Address * Hash) Hash
}.

Definition empty : MemDB := {| accounts := ∅; storage := ∅ |}.

#[export] Instance stateAccess : StateAccess MemDB := {|
  GetState := fun s a k => default zeroHash (storage s !! (a, k));
  SetState := fun s a k v =>
    {| accounts := accounts s; storage := <[(a, k) := v]> (storage s) |}
|}.

#[export] Instance expirationIndex : ExpirationIndex MemDB := {|
  AddToEntitiesToExpireAtBlock := fun s height key =>
    (entityexpiration.Add s height key, Ok tt);
  RemoveFromEntitiesToExpire := fun s height key =>
    (entityexpiration.Remove s height key, Ok tt);
  IteratorOfEntitiesToExpireAtBlock := fun s height =>
    entityexpiration.Sweep (size (storage s)) s height
|}.

#[export] Instance stateDB : housekeepingtx.StateDB MemDB := {|
  housekeepingtx.Exist := fun db a => bool_decide (is_Some (accounts db !! a));
  housekeepingtx.CreateAccount := fun db a =>
    {| accounts := <[a := 0]> (accounts db); storage := storage db |};
  housekeepingtx.CreateContract := fun db a => db;
  housekeepingtx.SetNonce := fun db a n =>
    {| accounts := <[a := n]> (accounts db); storage := storage db |}
|}.

(** A counter that keeps no count: the state access is the database. *)
#[export] Instance slotUsageCounter
  : housekeepingtx.SlotUsageCounter MemDB MemDB := {|
  housekeepingtx.NewSlotUsageCounter := fun db => db;
  housekeepingtx.UpdateUsedSlotsForGolemBase := fun st => st
|}.

(** Entity keys and owners for the examples. *)
Definition key (n : byte) : Hash := replicate 31 x00 ++ [n].
Definition owner (n : byte) : Address := replicate 19 x00 ++ [n].

(** The payload [[x01]] decodes to one Create and one Update, the empty
    payload to no operation, anything else is refused. *)
Definition oneCreateOneUpdate : storagetx.ArkivTransaction :=
  {| storagetx.Create :=
       [ {| storagetx.CBTL := 10; storagetx.CContentType := "text/plain";
            storagetx.CPayload := [x68; x69];
            storagetx.CStringAnnotations := [];
            storagetx.CNumericAnnotations := [] |} ];
     storagetx.Update :=
       [ {| storagetx.UEntityKey := key x07;
            storagetx.UContentType := "text/plain";
            storagetx.UBTL := 20; storagetx.UPayload := [x79; x6f];
            storagetx.UStringAnnotations := [];
            storagetx.UNumericAnnotations := [] |} ];
     storagetx.Extend := []; storagetx.ChangeOwner := [];
     storagetx.Delete := [] |}.

Definition noOperation : storagetx.ArkivTransaction :=
  {| storagetx.Create := []; storagetx.Update := []; storagetx.Extend := [];
     storagetx.ChangeOwner := []; storagetx.Delete := [] |}.

#[export] Instance codec : Codec := {|
  UnpackArkivTransaction := fun data =>
    match data with
    | [] => Ok noOperation
    | [x01] => Ok oneCreateOneUpdate
    | _ => Err (Errorf "undecodable payload" [])
    end;
  Sender := fun tx => Ok (BytesToAddress (Rest tx))
|}.

(** The hash of the canonical block at height [n]. *)
Definition numberHash (n : Z) : Hash :=
  x01 :: replicate 23 x00 ++ PutUint64 (replicate 8 x00) n.

Definition emptyBlock (n : Z) : Block :=
  {| NumberU64 := n; Time := 0; BlockHash := numberHash n;
     Transactions := [] |}.

(** A chain database [top] holds an empty canonical block with no receipt
    at every height from 1 to [top], and nothing else. *)
#[export] Instance chainDB : dbevents.ChainDB Z unit := {|
  dbevents.ReadCanonicalHash := fun top n =>
    if bool_decide (1 <= n <= top) then numberHash n else zeroHash;
  dbevents.ReadBlock := fun top hash n =>
    if bool_decide (1 <= n <= top /\ hash = numberHash n)
    then Some (emptyBlock n) else None;
  dbevents.ReadReceipts := fun top hash n time cc =>
    if bool_decide (1 <= n <= top /\ hash = numberHash n)
    then Some [] else None
|}.

End memory.

(** ** What a derived block holds

    The content of the operation list of [blockToEvents], written as lists
    rather than as loops; the theorems relate the two. *)

Module derived.
Import types.

(** The kind of an operation: which of its variant pointers is set. *)
Inductive OpKind : Type :=
| KCreate | KUpdate | KExtendBTL | KChangeOwner | KDelete | KExpire | KNone.

#[export] Instance OpKind_eq_dec : EqDecision OpKind.
Proof. solve_decision. Defined.

Definition opKind (op : events.Operation) : OpKind :=
  match events.Create op, events.Update op, events.ExtendBTL op,
        events.ChangeOwner op, events.Delete op, events.Expire op with
  | Some _, _, _, _, _, _ => KCreate
  | None, Some _, _, _, _, _ => KUpdate
  | None, None, Some _, _, _, _ => KExtendBTL
  | None, None, None, Some _, _, _ => KChangeOwner
  | None, None, None, None, Some _, _ => KDelete
  | None, None, None, None, None, Some _ => KExpire
  | None, None, None, None, None, None => KNone
  end.

(** The transaction index, the kind and the operation index. *)
Definition opId (op : events.Operation) : Z * OpKind * Z :=
  (events.TxIndex op, opKind op, events.OpIndex op).

(** A slice with the position of each element. *)
Definition indexed {A : Type} (l : list A) : list (nat * A) := imap pair l.

Section WithExternal.
Context `{External} `{Codec}.

(** The expiration log events of a log stream, with their positions in
    the stream. *)
Definition expirationLogs (logs : list Log) : list (nat * Log) :=
  filter (fun p => dbevents.isExpirationLog (snd p) = true) (indexed logs).

(** The Expire operation of the expiration log at position [fst p]. *)
Definition expireOperation (p : nat * Log) : events.Operation :=
  dbevents.withExpire (dbevents.operation 0 (Z.of_nat (fst p)))
    (BytesToHash (take 32 (LogData (snd p)))).

(** The operations of the transaction at index [i]: one per element of
    each of its five lists, the index counted within each list. *)
Definition operationsOf (i : nat) (from : Address)
    (atx : storagetx.ArkivTransaction) (created : list Hash)
  : list events.Operation :=
  imap (fun j ck => dbevents.createOperation i from j (snd ck) (fst ck))
       (zip (storagetx.Create atx) created)
  ++ imap (dbevents.updateOperation i from) (storagetx.Update atx)
  ++ imap (dbevents.extendOperation i) (storagetx.Extend atx)
  ++ imap (dbevents.changeOwnerOperation i) (storagetx.ChangeOwner atx)
  ++ imap (dbevents.deleteOperation i) (storagetx.Delete atx).

(** [op] is an operation of the transaction at index [i], which is a
    successful transaction addressed to the storage processor. *)
Definition fromTransactionAt (transactions : list Transaction)
    (rawReceipts : list Receipt) (i : nat) (op : events.Operation)
  : Prop :=
  exists transaction receipt atx from created,
    transactions !! i = Some transaction
    /\ To transaction = Some ArkivProcessorAddress
    /\ rawReceipts !! i = Some receipt
    /\ Status receipt = ReceiptStatusSuccessful
    /\ UnpackArkivTransaction (Data transaction) = Ok atx
    /\ Sender transaction = Ok from
    /\ dbevents.createdEntities receipt = Ok created
    /\ op ∈ operationsOf i from atx created.

Definition fromTransaction (transactions : list Transaction)
    (rawReceipts : list Receipt) (op : events.Operation) : Prop :=
  exists i, fromTransactionAt transactions rawReceipts i op.

(** What an element of [operationsOf] is: the operation built from the
    element at position [j] of the list of its kind. *)
Definition builtFrom (i : nat) (from : Address)
    (atx : storagetx.ArkivTransaction) (created : list Hash)
    (j : nat) (op : events.Operation) : Prop :=
  match opKind op with
  | KCreate =>
      exists c k, storagetx.Create atx !! j = Some c
                  /\ created !! j = Some k
                  /\ op = dbevents.createOperation i from j k c
  | KUpdate =>
      exists u, storagetx.Update atx !! j = Some u
                /\ op = dbevents.updateOperation i from j u
  | KExtendBTL =>
      exists x, storagetx.Extend atx !! j = Some x
                /\ op = dbevents.extendOperation i j x
  | KChangeOwner =>
      exists c, storagetx.ChangeOwner atx !! j = Some c
                /\ op = dbevents.changeOwnerOperation i j c
  | KDelete =>
      exists d, storagetx.Delete atx !! j = Some d
                /\ op = dbevents.deleteOperation i j d
  | KExpire | KNone => False
  end.

(** The operations that the transaction at index [i] adds to the block:
    none when the loop skips it, those of [operationsOf] when it is a
    successful transaction addressed to the processor. *)
Definition transactionStep (i : nat) (transaction : Transaction)
    (rawReceipts : list Receipt) : result (list events.Operation) :=
  match To transaction with
  | None => Ok []
  | Some transactionTo =>
    if bool_decide (transactionTo <> ArkivProcessorAddress) then Ok []
    else
      match rawReceipts !! i with
      | None => Panic
      | Some receipt =>
        if bool_decide (Status receipt <> ReceiptStatusSuccessful)
        then Ok []
        else
          match UnpackArkivTransaction (Data transaction) with
          | Err err =>
              Err (Wrapf "failed to unpack arkiv transaction: %w" [] err)
          | Panic => Panic
          | Ok atx =>
            match Sender transaction with
            | Err err =>
                Err (Wrapf "failed to get sender from transaction: %w"
                           [] err)
            | Panic => Panic
            | Ok from =>
              match dbevents.createdEntities receipt with
              | Ok created =>
                  if decide (length (storagetx.Create atx)
                             <= length created)%nat
                  then Ok (operationsOf i from atx created)
                  else Panic
              | Err err => Err err
              | Panic => Panic
              end
            end
          end
      end
  end.

End WithExternal.

Section WithChain.
Context `{External} `{Codec} {DB CC : Type} `{dbevents.ChainDB DB CC}.

(** The heights [lastBlock + 1, ..., lastBlock + n]. *)
Definition heights (lastBlock : Z) (n : nat) : list Z :=
  (fun i => lastBlock + 1 + Z.of_nat i) <$> seq 0 n.

(** The block [b] is what the iterator derives at height [number]. *)
Definition derivesAt (db : DB) (chainConfig : CC) (number : Z)
    (b : events.Block) : Prop :=
  dbevents.readHeight db chainConfig number = Ok (Some b)
  /\ events.Number b = number.


End WithChain.

End derived.

(** ** What a sweep does, key by key *)

Module sweeping.
Import types.

Section WithState.
Context `{External} {S : Type} `{StateAccess S} `{ExpirationIndex S}.

(** [deletesInOrder n st keys st' logs]: starting in [st], each key of
    [keys] in turn is deleted with success, every deletion in the state
    that the one before it returned, ending in [st']; [logs] holds, in
    the same order, one expiration event per key, with the key and with
    the owner that the metadata of the key recorded when it was
    deleted. *)
Inductive deletesInOrder (blockNumber : Z)
  : S -> list Hash -> S -> list Log -> Prop :=
| deletes_nil (st : S) : deletesInOrder blockNumber st [] st []
| deletes_cons (st st1 st2 : S) (key : Hash) (md : entity.EntityMetaData)
    (keys : list Hash) (logs : list Log) :
    entity.GetEntityMetaData st key = Ok md ->
    entity.Delete st key = (st1, Ok (entity.Owner md)) ->
    deletesInOrder blockNumber st1 keys st2 logs ->
    deletesInOrder blockNumber st (key :: keys) st2
      (housekeepingtx.expiredLog blockNumber key (entity.Owner md) :: logs).

End WithState.

End sweeping.

(** ** States and blocks for the examples *)

Module examples.
Import types memory.

(** One entity, of owner [owner x0a], expiring at height 10. *)
Definition oneEntity : MemDB :=
  (fst (entity.Store empty (key x01) (owner x0a)
     {| entity.Owner := owner x0a; entity.ExpiresAtBlock := 10 |} [])).

(** A second entity expiring at the same height. *)
Definition twoEntities : MemDB :=
  (fst (entity.Store oneEntity (key x02) (owner x0b)
     {| entity.Owner := owner x0b; entity.ExpiresAtBlock := 10 |} [])).

Definition expiredLogOf (k : Hash) (o : Address) : Log :=
  housekeepingtx.expiredLog 7 k o.

(** A log of the processor that is not an expiration event. *)
Definition otherLog : Log :=
  {| LogAddress := ArkivProcessorAddress;
     Topics := [replicate 31 x00 ++ [x55]];
     LogData := [];
     LogBlockNumber := 7 |}.

Definition createdLog (k : Hash) : Log :=
  {| LogAddress := ArkivProcessorAddress;
     Topics := [ArkivEntityCreated; k];
     LogData := [];
     LogBlockNumber := 7 |}.

(** A block of two transactions: one addressed elsewhere, whose receipt
    holds a foreign log followed by one expiration event, and one storage
    transaction with a Create and an Update. *)
Definition block7 : Block :=
  {| NumberU64 := 7; Time := 0; BlockHash := numberHash 7;
     Transactions :=
       [ {| To := Some (owner xff); Data := []; Rest := [] |};
         {| To := Some ArkivProcessorAddress; Data := [x01];
            Rest := owner x0a |} ] |}.

Definition receipts7 : list Receipt :=
  [ {| Status := ReceiptStatusSuccessful;
       Logs := [otherLog; expiredLogOf (key x05) (owner x0c)] |};
    {| Status := ReceiptStatusSuccessful;
       Logs := [createdLog (key x09)] |} ].

(** The block derived from the empty block at height [n]. *)
Definition derivedEmpty (n : Z) : events.Block :=
  {| events.Number := n; events.Operations := [] |}.

(** A transaction with 2001 operations, as in the feature file. *)
Definition tooManyOperations : storagetx.ArkivTransaction :=
  {| storagetx.Create := []; storagetx.Update := [];
     storagetx.Extend := []; storagetx.ChangeOwner := [];
     storagetx.Delete := replicate 2001 (key x01) |}.

End examples.

(** ** What the helpers of the derivation compute *)

Module helpers.
Import types.

Section WithExternal.
Context `{External}.

(** The entity key that a log contributes to [createdEntities]: its second
    topic, when its first topic is the creation topic. *)
Definition createdKey (log : Log) : option Hash :=
  match Topics log with
  | topic0 :: entityKey :: _ =>
      if bool_decide (topic0 = ArkivEntityCreated) then Some entityKey
      else None
  | _ => None
  end.

(** The topics that [createdEntities] indexes are there: the log has a
    first topic, and a second one when the first is the creation topic. *)
Definition topicsSuffice (log : Log) : Prop :=
  match Topics log with
  | [] => False
  | [topic0] => topic0 <> ArkivEntityCreated
  | _ :: _ :: _ => True
  end.

End WithExternal.

End helpers.

(** ** Consistency of a chain database *)

Module chain.
Import types.

Section WithChain.
Context `{External} `{Codec} {DB CC : Type} `{dbevents.ChainDB DB CC}.

(** The block found at a height carries the number of that height: what
    the iterator derives at height [number] is a block numbered [number]. *)
Definition numbersMatch (db : DB) (chainConfig : CC) : Prop :=
  forall (number : Z) (b : events.Block),
    dbevents.readHeight db chainConfig number = Ok (Some b) ->
    events.Number b = number.

End WithChain.

(** A chain database in which the canonical hash of height [top + 1] is
    already written while its block is not: the state between the two
    writes of a block import. Heights up to [top] are as in [memory]. *)
Definition hashAhead : dbevents.ChainDB Z unit := {|
  dbevents.ReadCanonicalHash := fun top n =>
    if bool_decide (1 <= n <= top + 1) then memory.numberHash n else zeroHash;
  dbevents.ReadBlock := fun top hash n =>
    if bool_decide (1 <= n <= top /\ hash = memory.numberHash n)
    then Some (memory.emptyBlock n) else None;
  dbevents.ReadReceipts := fun top hash n time cc =>
    if bool_decide (1 <= n <= top /\ hash = memory.numberHash n)
    then Some [] else None
|}.

(** A block whose only transaction is addressed elsewhere and carries a
    payload that does not decode. *)
Definition foreignBlock : Block :=
  {| NumberU64 := 8; Time := 0; BlockHash := memory.numberHash 8;
     Transactions :=
       [ {| To := Some (memory.owner xff); Data := [xff]; Rest := [] |} ] |}.

(** A block of height [n] whose only transaction is a storage transaction
    with a payload that does not decode. *)
Definition undecodableBlock (n : Z) : Block :=
  {| NumberU64 := n; Time := 0; BlockHash := memory.numberHash n;
     Transactions :=
       [ {| To := Some (@ArkivProcessorAddress memory.external);
            Data := [xff]; Rest := [] |} ] |}.

(** A chain database in which height [top + 1] holds [undecodableBlock]
    with the receipt of a successful transaction. Heights up to [top] are
    as in [memory]. *)
Definition undecodableAhead : dbevents.ChainDB Z unit := {|
  dbevents.ReadCanonicalHash := fun top n =>
    if bool_decide (1 <= n <= top + 1) then memory.numberHash n else zeroHash;
  dbevents.ReadBlock := fun top hash n =>
    if bool_decide (1 <= n <= top /\ hash = memory.numberHash n)
    then Some (memory.emptyBlock n)
    else if bool_decide (n = top + 1 /\ hash = memory.numberHash n)
    then Some (undecodableBlock n) else None;
  dbevents.ReadReceipts := fun top hash n time cc =>
    if bool_decide (1 <= n <= top /\ hash = memory.numberHash n)
    then Some []
    else if bool_decide (n = top + 1 /\ hash = memory.numberHash n)
    then Some [ {| Status := ReceiptStatusSuccessful; Logs := [] |} ]
    else None
|}.

End chain.

(** * Facts about the byte codec *)

Section CodecFacts.

Lemma Z_of_byte_of_Z (v : Z) : Z_of_byte (byte_of_Z v) = v mod 256.
Proof.
  unfold Z_of_byte, byte_of_Z.
  assert (Hr : 0 <= v mod 256 < 256) by (apply Z.mod_pos_bound; lia).
  destruct (Byte.of_N (Z.to_N (v mod 256))) as [b|] eqn:E.
  - apply Byte.to_of_N in E. rewrite E. lia.
  - apply Byte.of_N_None_iff in E. lia.
Qed.

Lemma Z_of_byte_range (b : byte) : 0 <= Z_of_byte b < 256.
Proof.
  unfold Z_of_byte. pose proof (Byte.to_N_bounded b). lia.
Qed.

Lemma lor_shiftl_add (a b n : Z) :
  0 <= n -> 0 <= a < 2 ^ n -> Z.lor a (Z.shiftl b n) = a + b * 2 ^ n.
Proof.
  intros Hn Ha.
  rewrite <- Z.shiftl_mul_pow2 by lia.
  rewrite <- Z.add_lor_land.
  assert (Hz : Z.land a (Z.shiftl b n) = 0).
  { apply Z.bits_inj'. intros m Hm.
    rewrite Z.land_spec, Z.bits_0.
    destruct (Z.lt_ge_cases m n) as [Hlt|Hge].
    - rewrite Z.shiftl_spec_low by lia. apply andb_false_r.
    - destruct (Z.eq_dec a 0) as [->|Hne].
      + rewrite Z.bits_0. reflexivity.
      + assert (Z.log2 a < n) by (apply Z.log2_lt_pow2; lia).
        rewrite (Z.bits_above_log2 a m) by lia. reflexivity. }
  rewrite Hz. lia.
Qed.

Lemma Uint64_PutUint64 (b : list byte) (v : Z) :
  length b = 8%nat -> 0 <= v < 2 ^ 64 -> Uint64 (PutUint64 b v) = v.
Proof.
  intros Hb Hv.
  do 9 (destruct b as [|? b]; try discriminate Hb).
  unfold PutUint64, copy, Uint64, at_. cbn [length take drop app nth].
  rewrite !Z_of_byte_of_Z, !Z.shiftr_div_pow2 by lia.
  rewrite (lor_shiftl_add (v mod 256) _ 8)
    by (try lia; Z.div_mod_to_equations; lia).
  do 6 (rewrite (lor_shiftl_add (_ + _) _ _)
    by (try lia; Z.div_mod_to_equations; lia)).
  Z.div_mod_to_equations. lia.
Qed.

End CodecFacts.

(** * The metadata word *)

Section MetaDataWord.
Import entity.

Lemma BytesToAddress_length (b : list byte) : is_address (BytesToAddress b).
Proof.
  unfold is_address, BytesToAddress, copy, zeroAddress, AddressLength.
  case_decide; repeat rewrite ?length_app, ?length_take, ?length_drop,
    ?length_replicate; lia.
Qed.

Lemma BytesToAddress_address (a : Address) :
  is_address a -> BytesToAddress a = a.
Proof.
  unfold is_address, AddressLength. intros Ha.
  do 21 (destruct a as [|? a]; try discriminate Ha). reflexivity.
Qed.

(** The layout of the word: the owner, four zero bytes, the expiry. *)
Lemma Marshal_layout (emd : EntityMetaData) :
  is_address (Owner emd) ->
  Marshal emd
  = Owner emd ++ replicate 4 x00
      ++ PutUint64 (replicate 8 x00) (ExpiresAtBlock emd).
Proof.
  destruct emd as [o e]. unfold is_address, AddressLength. cbn [Owner ExpiresAtBlock].
  intros Ho. do 21 (destruct o as [|? o]; try discriminate Ho).
  reflexivity.
Qed.

Lemma PutUint64_length (b : list byte) (v : Z) :
  length b = 8%nat -> length (PutUint64 b v) = 8%nat.
Proof.
  intros Hb. do 9 (destruct b as [|? b]; try discriminate Hb). reflexivity.
Qed.

Lemma Marshal_is_hash (emd : EntityMetaData) :
  is_address (Owner emd) -> is_hash (Marshal emd).
Proof.
  intros Ho. rewrite Marshal_layout by done. unfold is_hash, HashLength.
  rewrite !length_app, Ho, length_replicate, PutUint64_length by done.
  reflexivity.
Qed.

Lemma Unmarshal_Marshal_eq (emd : EntityMetaData) :
  is_address (Owner emd) -> 0 <= ExpiresAtBlock emd < 2 ^ 64 ->
  Unmarshal (Marshal emd) = emd.
Proof.
  intros Ho He. rewrite Marshal_layout by done.
  destruct emd as [o e]; cbn [Owner ExpiresAtBlock] in *.
  unfold Unmarshal. f_equal.
  - rewrite take_app_length' by (symmetry; exact Ho).
    by apply BytesToAddress_address.
  - rewrite app_assoc, drop_app_length'
      by (rewrite length_app, length_replicate, Ho; reflexivity).
    by apply Uint64_PutUint64.
Qed.

(** C10. The metadata record packs into one 32-byte word and the packing
    round-trips: for every record with a 20-byte owner and a uint64
    expiry, [Marshal] yields a 32-byte word from which [Unmarshal]
    recovers the same owner and the same expiry. *)
Theorem Unmarshal_Marshal (emd : EntityMetaData) :
  is_address (Owner emd) -> 0 <= ExpiresAtBlock emd < 2 ^ 64 ->
  is_hash (Marshal emd)
  /\ Owner (Unmarshal (Marshal emd)) = Owner emd
  /\ ExpiresAtBlock (Unmarshal (Marshal emd)) = ExpiresAtBlock emd.
Proof.
  intros Ho He. split; [by apply Marshal_is_hash|].
  rewrite Unmarshal_Marshal_eq by done. done.
Qed.

Lemma Unmarshal_Marshal_witness :
  let emd := {| Owner := memory.owner x0a;
                ExpiresAtBlock := 18446744073709551615 |} in
  is_hash (Marshal emd)
  /\ Owner (Unmarshal (Marshal emd)) = Owner emd
  /\ ExpiresAtBlock (Unmarshal (Marshal emd)) = ExpiresAtBlock emd.
Proof.
  apply Unmarshal_Marshal; [reflexivity | cbn; lia].
Defined.

End MetaDataWord.

(** * The entity store *)

Section EntityStore.
Import entity.
Context `{External} {S : Type} `{StateAccess S} `{ExpirationIndex S}.

Lemma Unmarshal_zeroHash :
  Unmarshal zeroHash = {| Owner := zeroAddress; ExpiresAtBlock := 0 |}.
Proof. reflexivity. Qed.

Lemma Uint64_nonneg (b : list byte) : 0 <= Uint64 b.
Proof.
  unfold Uint64, at_.
  repeat (apply Z.lor_nonneg; split);
    try (apply Z.shiftl_nonneg); apply Z_of_byte_range.
Qed.

Lemma GetEntityMetaData_Ok (access : S) (key : Hash) (emd : EntityMetaData) :
  GetEntityMetaData access key = Ok emd ->
  emd = Unmarshal (GetState access ArkivProcessorAddress (metaSlot key))
  /\ is_address (Owner emd) /\ 0 <= ExpiresAtBlock emd.
Proof.
  unfold GetEntityMetaData. intros [= <-]. split; [done|]. split.
  - apply BytesToAddress_length.
  - apply Uint64_nonneg.
Qed.

Lemma GetEntityMetaData_reads_zero (access : S) (key : Hash) :
  GetState access ArkivProcessorAddress (metaSlot key) = zeroHash ->
  GetEntityMetaData access key = Ok (Unmarshal zeroHash).
Proof. intros Hz. unfold GetEntityMetaData. by rewrite Hz. Qed.

(** The revision of get_entity_metadata.go on a key whose metadata slot
    reads as the all-zero word: it returns the record decoded from that
    word, with the zero address as owner and expiry 0, and no error. *)
Lemma GetEntityMetaData_unset_slot (access : S) (key : Hash) :
  GetState access ArkivProcessorAddress (metaSlot key) = zeroHash ->
  GetEntityMetaData access key
  = Ok {| Owner := zeroAddress; ExpiresAtBlock := 0 |}.
Proof.
  intros Hz. rewrite (GetEntityMetaData_reads_zero _ _ Hz).
  by rewrite Unmarshal_zeroHash.
Qed.

(** The reader never returns an error at all. *)
Lemma GetEntityMetaData_never_fails (access : S) (key : Hash) :
  is_Ok (GetEntityMetaData access key) = true.
Proof. reflexivity. Qed.




(** [Delete] with the revision of get_entity_metadata.go, on a key whose
    metadata slot reads as the all-zero word, does not fail at the
    metadata read: it goes on to remove the key from the bucket of height
    0, and when that removal reports no error it clears the metadata word
    and returns the zero address with a nil error. *)
Lemma Delete_unset_slot (access : S) (toDelete : Hash) :
  GetState access ArkivProcessorAddress (metaSlot toDelete) = zeroHash ->
  Delete access toDelete
  = match RemoveFromEntitiesToExpire access 0 toDelete with
    | (access, Ok _) =>
        (DeleteEntityMetadata access toDelete, Ok zeroAddress)
    | (access, Err err) =>
        (access,
         Err (Wrapf "failed to remove entity from entities to expire: %w"
                    [] err))
    | (access, Panic) => (access, Panic)
    end.
Proof.
  intros Hz. unfold Delete, Delete_with.
  rewrite (GetEntityMetaData_reads_zero _ _ Hz). reflexivity.
Qed.


(** [Delete] of a key with metadata, with either reader: the key is
    removed from the bucket of the recorded height in the state in which
    the metadata is still there, the word is cleared in the state that the
    removal returns, and the recorded owner is returned. *)
Lemma Delete_with_present (get : S -> Hash -> result EntityMetaData)
    (access access1 : S) (toDelete : Hash) (md : EntityMetaData) :
  get access toDelete = Ok md ->
  RemoveFromEntitiesToExpire access (ExpiresAtBlock md) toDelete
    = (access1, Ok tt) ->
  Delete_with get access toDelete
  = (SetState access1 ArkivProcessorAddress (metaSlot toDelete) zeroHash,
     Ok (Owner md)).
Proof.
  intros Hget Hrm. unfold Delete_with. rewrite Hget, Hrm. reflexivity.
Qed.

(** When the removal from the bucket fails, the metadata word is not
    cleared: [Delete] returns the state that the removal left. *)
Lemma Delete_with_removal_fails (get : S -> Hash -> result EntityMetaData)
    (access access1 : S) (toDelete : Hash) (md : EntityMetaData)
    (err : error) :
  get access toDelete = Ok md ->
  RemoveFromEntitiesToExpire access (ExpiresAtBlock md) toDelete
    = (access1, Err err) ->
  Delete_with get access toDelete
  = (access1,
     Err (Wrapf "failed to remove entity from entities to expire: %w"
                [] err)).
Proof.
  intros Hget Hrm. unfold Delete_with. rewrite Hget, Hrm. reflexivity.
Qed.

Context `{!StateAccessLaws S}.



(** A record that was stored is read back as it was stored. *)
Lemma GetEntityMetaData_stored (access : S) (key : Hash)
    (emd : EntityMetaData) :
  is_address (Owner emd) -> 0 <= ExpiresAtBlock emd < 2 ^ 64 ->
  GetEntityMetaData (fst (StoreEntityMetaData access key emd)) key = Ok emd.
Proof.
  intros Ho He. unfold GetEntityMetaData, StoreEntityMetaData. cbn [fst].
  rewrite GetState_SetState_eq. by rewrite Unmarshal_Marshal_eq.
Qed.

(** C6 (amended). For an entity whose metadata records owner [o] and
    expiry [h], [ExtendBTL key n] removes the key from the bucket of [h],
    adds it to the bucket of [(h + n) mod 2^64], stores the metadata with
    that expiry and the owner unchanged, so that it reads back as such,
    and returns to its caller the expiry [h] that the entity had before
    the call, with the owner [o]. The new expiry is [h + n] unless the
    sum leaves the range of uint64. *)
Theorem ExtendBTL_moves_bucket_returns_old_expiry
    (access access1 access2 : S) (entityKey : Hash) (numberOfBlocks : Z)
    (o : Address) (h : Z) :
  GetEntityMetaData access entityKey
    = Ok {| Owner := o; ExpiresAtBlock := h |} ->
  RemoveFromEntitiesToExpire access h entityKey = (access1, Ok tt) ->
  AddToEntitiesToExpireAtBlock access1 (u64 (h + numberOfBlocks)) entityKey
    = (access2, Ok tt) ->
  let stored := {| Owner := o; ExpiresAtBlock := u64 (h + numberOfBlocks) |} in
  let access3 := SetState access2 ArkivProcessorAddress (metaSlot entityKey)
                   (Marshal stored) in
  ExtendBTL access entityKey numberOfBlocks = (access3, Ok (h, o))
  /\ GetEntityMetaData access3 entityKey = Ok stored
  /\ (0 <= numberOfBlocks -> h + numberOfBlocks < 2 ^ 64 ->
      ExpiresAtBlock stored = h + numberOfBlocks).
Proof.
  intros Hget Hrm Hadd stored access3.
  destruct (GetEntityMetaData_Ok _ _ _ Hget) as (_ & Ho & Hh).
  cbn [Owner ExpiresAtBlock] in Ho, Hh.
  split; [|split].
  - unfold ExtendBTL, ExtendBTL_with. rewrite Hget.
    cbn [Owner ExpiresAtBlock]. rewrite Hrm.
    cbn [Owner ExpiresAtBlock]. rewrite Hadd. reflexivity.
  - unfold access3, GetEntityMetaData. rewrite GetState_SetState_eq.
    rewrite Unmarshal_Marshal_eq; [done|done|].
    unfold stored, u64, uint64_modulus. cbn [ExpiresAtBlock].
    apply Z.mod_pos_bound. lia.
  - intros Hn Hlt. unfold stored, u64, uint64_modulus. cbn [ExpiresAtBlock].
    apply Z.mod_small. lia.
Qed.

End EntityStore.

(** * The entity store on the in-memory world *)

Section EntityStoreExamples.
Import entity memory examples.

(** The in-memory storage keeps the last word written to each slot. *)
Lemma memory_stateAccessLaws : StateAccessLaws MemDB.
Proof.
  split.
  - intros s a k v. cbn. by rewrite lookup_insert_eq.
  - intros s a k v a' k' Hne. cbn. by rewrite lookup_insert_ne.
Qed.

#[local] Existing Instance memory_stateAccessLaws.



(** The revision of get_entity_metadata.go on the empty store. *)
Lemma GetEntityMetaData_unset_slot_witness :
  GetState empty ArkivProcessorAddress (metaSlot (key x01)) = zeroHash
  /\ GetEntityMetaData empty (key x01)
     = Ok {| Owner := zeroAddress; ExpiresAtBlock := 0 |}.
Proof.
  split; [reflexivity|].
  apply (GetEntityMetaData_unset_slot (S := MemDB)). reflexivity.
Defined.

Lemma Delete_unset_slot_witness :
  GetState empty ArkivProcessorAddress (metaSlot (key x01)) = zeroHash
  /\ Delete empty (key x01)
     = (DeleteEntityMetadata (entityexpiration.Remove empty 0 (key x01))
          (key x01),
        Ok zeroAddress).
Proof.
  split; [reflexivity|].
  etransitivity;
    [apply (Delete_unset_slot (S := MemDB)); reflexivity | reflexivity].
Defined.

(** On the empty store, with the revision of get_entity_metadata.go,
    [Delete] of a key that was never stored succeeds and reports the zero
    address as the owner. *)
Example Delete_absent_key_succeeds :
  (snd (Delete empty (key x01))) = Ok zeroAddress.
Proof. vm_compute. reflexivity. Qed.

(** With the reader of its own file it fails and writes nothing. *)
Example Delete_with_checked_absent_key_fails :
  Delete_with GetEntityMetaData_checked empty (key x01)
  = (empty,
     Err (Wrapf "failed to get entity meta data: %w" []
            (Errorf "failed to retrieve entity metadata for key %s"
                    [ArgBytes (key x01)]))).
Proof. vm_compute. reflexivity. Qed.

(** C6, as stated, fails: on an entity expiring at height 10, extending by
    5 blocks returns 10 to the caller, not the new expiry 15. *)
Lemma ExtendBTL_returns_old_expiry_counterexample :
  GetEntityMetaData oneEntity (key x01)
    = Ok {| Owner := owner x0a; ExpiresAtBlock := 10 |}
  /\ (snd (ExtendBTL oneEntity (key x01) 5)) = Ok (10, owner x0a)
  /\ (snd (ExtendBTL oneEntity (key x01) 5)) <> Ok (10 + 5, owner x0a).
Proof.
  split; [vm_compute; reflexivity|].
  split; [vm_compute; reflexivity|].
  vm_compute. discriminate.
Qed.

Lemma ExtendBTL_moves_bucket_returns_old_expiry_witness :
  let access1 := entityexpiration.Remove oneEntity 10 (key x01) in
  let access2 := entityexpiration.Add access1 15 (key x01) in
  let stored := {| Owner := owner x0a; ExpiresAtBlock := 15 |} in
  let access3 := SetState access2 ArkivProcessorAddress (metaSlot (key x01))
                   (Marshal stored) in
  ExtendBTL oneEntity (key x01) 5 = (access3, Ok (10, owner x0a))
  /\ GetEntityMetaData access3 (key x01) = Ok stored
  /\ (0 <= 5 -> 10 + 5 < 2 ^ 64 -> ExpiresAtBlock stored = 10 + 5).
Proof.
  apply (ExtendBTL_moves_bucket_returns_old_expiry (S := MemDB)
           oneEntity (entityexpiration.Remove oneEntity 10 (key x01))
           (entityexpiration.Add
              (entityexpiration.Remove oneEntity 10 (key x01)) 15 (key x01))
           (key x01) 5 (owner x0a) 10).
  - vm_compute. reflexivity.
  - reflexivity.
  - reflexivity.
Defined.

(** The bucket of height 10 loses the key and the bucket of height 15
    gains it. *)
Example ExtendBTL_moves_between_buckets :
  IteratorOfEntitiesToExpireAtBlock oneEntity 10 = [key x01]
  /\ IteratorOfEntitiesToExpireAtBlock (fst (ExtendBTL oneEntity (key x01) 5)) 10
     = []
  /\ IteratorOfEntitiesToExpireAtBlock (fst (ExtendBTL oneEntity (key x01) 5)) 15
     = [key x01].
Proof. vm_compute. done. Qed.

End EntityStoreExamples.

(** * The housekeeping sweep *)

Section Housekeeping.
Import types entity housekeepingtx sweeping.
Context `{External} {D S : Type} `{StateDB D} `{StateAccess S}
        `{ExpirationIndex S} `{SlotUsageCounter D S}.





End Housekeeping.

Section HousekeepingExamples.
Import types entity housekeepingtx memory examples.

(** Two entities expire at height 10: the sweep deletes both and returns
    one event for each, the one stored last first. *)
Example ExecuteTransaction_two_entities :
  LogData <$> default [] (match (snd (ExecuteTransaction 10 zeroHash twoEntities))
                          with Ok logs => Some logs | _ => None end)
  = [key x02; key x01]
  /\ IteratorOfEntitiesToExpireAtBlock
       (fst (ExecuteTransaction 10 zeroHash twoEntities)) 10 = []
  /\ GetState (fst (ExecuteTransaction 10 zeroHash twoEntities))
       ArkivProcessorAddress (metaSlot (key x01)) = zeroHash.
Proof. vm_compute. done. Qed.

(** Why the keys are collected first: once the head of the bucket is
    deleted its node is cleared, and the traversal resumed from it in the
    new state finds no successor. *)
Example traversal_after_deletion_loses_keys :
  IteratorOfEntitiesToExpireAtBlock twoEntities 10 = [key x02; key x01]
  /\ GetState (fst (Delete twoEntities (key x02))) ArkivProcessorAddress
       (entityexpiration.nextSlot (key x02)) = zeroHash.
Proof. vm_compute. done. Qed.

End HousekeepingExamples.

(** * The derivation of operations from a block *)

Section Derivation.
Import types dbevents derived.
Context `{External} `{Codec}.

(** ** The loops as lists *)

Lemma rangeAppend_spec {A : Type} (f : nat -> A -> events.Operation)
    (xs : list A) :
  forall (opIndex : nat) (ops : list events.Operation),
    rangeAppend f opIndex xs ops
    = ops ++ imap (fun j => f (opIndex + j)%nat) xs.
Proof.
  induction xs as [|x xs IH]; intros opIndex ops; cbn.
  - by rewrite app_nil_r.
  - rewrite IH, <- app_assoc. cbn. rewrite Nat.add_0_r.
    do 2 f_equal. apply imap_ext. intros j y _. cbn.
    f_equal. lia.
Qed.

Lemma createLoop_spec (i : nat) (from : Address)
    (creates : list storagetx.ArkivCreate) :
  forall (opIndex : nat) (created : list Hash)
         (ops : list events.Operation),
    createLoop i from opIndex creates created ops
    = if decide (length creates <= length created)%nat
      then Ok (ops ++ imap (fun j ck =>
                              createOperation i from (opIndex + j) (snd ck) (fst ck))
                           (zip creates created))
      else Panic.
Proof.
  induction creates as [|c creates IH]; intros opIndex created ops; cbn.
  - rewrite decide_True by lia. by rewrite app_nil_r.
  - destruct created as [|k created]; cbn.
    + by rewrite decide_False by lia.
    + rewrite IH. destruct (decide (length creates <= length created)%nat).
      * rewrite decide_True by lia. rewrite <- app_assoc. cbn.
        rewrite Nat.add_0_r. do 3 f_equal.
        apply imap_ext. intros j y _. cbn. f_equal. lia.
      * by rewrite decide_False by lia.
Qed.

Lemma transactionOperations_spec (i : nat) (from : Address)
    (atx : storagetx.ArkivTransaction) (created : list Hash)
    (ops : list events.Operation) :
  transactionOperations i from atx created ops
  = if decide (length (storagetx.Create atx) <= length created)%nat
    then Ok (ops ++ operationsOf i from atx created)
    else Panic.
Proof.
  unfold transactionOperations. rewrite createLoop_spec.
  destruct (decide _); [|done].
  rewrite !rangeAppend_spec. unfold operationsOf.
  by rewrite <- !app_assoc.
Qed.

Lemma transactionLoop_cons (i : nat) (transaction : Transaction)
    (rest : list Transaction) (rawReceipts : list Receipt)
    (ops : list events.Operation) :
  transactionLoop i (transaction :: rest) rawReceipts ops
  = match transactionStep i transaction rawReceipts with
    | Ok new => transactionLoop (S i) rest rawReceipts (ops ++ new)
    | Err err => Err err
    | Panic => Panic
    end.
Proof.
  cbn [transactionLoop]. unfold transactionStep.
  destruct (To transaction) as [to|]; [|by rewrite app_nil_r].
  destruct (bool_decide _); [by rewrite app_nil_r|].
  destruct (rawReceipts !! i) as [receipt|]; [|done].
  destruct (bool_decide _); [by rewrite app_nil_r|].
  destruct (UnpackArkivTransaction _) as [atx| |]; [|done..].
  destruct (Sender _) as [from| |]; [|done..].
  destruct (createdEntities receipt) as [created| |]; [|done..].
  rewrite transactionOperations_spec. by destruct (decide _).
Qed.

Lemma expireLoop_spec (logs : list Log) :
  forall (opIndex : nat) (ops : list events.Operation),
    expireLoop opIndex logs ops
    = ops ++ (expireOperation
                <$> filter (fun p => isExpirationLog (snd p) = true)
                      (imap (fun j log => ((opIndex + j)%nat, log)) logs)).
Proof.
  induction logs as [|log logs IH]; intros opIndex ops.
  - cbn. by rewrite app_nil_r.
  - cbn [expireLoop imap]. rewrite filter_cons. cbn [snd].
    assert (Hext : imap ((fun j l => ((opIndex + j)%nat, l)) ∘ S) logs
                   = imap (fun j l => ((S opIndex + j)%nat, l)) logs).
    { apply imap_ext. intros j l _. cbn. f_equal. lia. }
    rewrite Hext. clear Hext.
    destruct (decide (isExpirationLog log = true)) as [Hexp|Hexp];
      unfold isExpirationLog in Hexp;
      destruct (Topics log) as [|topic0 more]; try done.
    + rewrite Hexp, IH, <- app_assoc.
      cbn. unfold expireOperation at 2. cbn. by rewrite Nat.add_0_r.
    + apply not_true_is_false in Hexp. rewrite Hexp. apply IH.
Qed.

(** ** The operations of one transaction *)

Lemma opId_imap {A : Type} (f : nat -> A -> events.Operation) (i : nat)
    (v : OpKind) (l : list A) :
  (forall j x, opId (f j x) = (Z.of_nat i, v, Z.of_nat j)) ->
  opId <$> imap f l
  = (fun j => (Z.of_nat i, v, Z.of_nat j)) <$> seq 0 (length l).
Proof.
  intros Hf. rewrite fmap_imap, <- imap_seq_0.
  apply imap_ext. intros j x _. apply Hf.
Qed.

Lemma NoDup_ids (i : nat) (v : OpKind) (n : nat) :
  NoDup ((fun j => (Z.of_nat i, v, Z.of_nat j)) <$> seq 0 n).
Proof.
  apply NoDup_fmap_2_strong; [|apply NoDup_seq].
  intros j1 j2 _ _ [= Hj]. lia.
Qed.

Lemma operationsOf_ids (i : nat) (from : Address)
    (atx : storagetx.ArkivTransaction) (created : list Hash) :
  opId <$> operationsOf i from atx created
  = ((fun j => (Z.of_nat i, KCreate, Z.of_nat j))
       <$> seq 0 (length (zip (storagetx.Create atx) created)))
    ++ ((fun j => (Z.of_nat i, KUpdate, Z.of_nat j))
          <$> seq 0 (length (storagetx.Update atx)))
    ++ ((fun j => (Z.of_nat i, KExtendBTL, Z.of_nat j))
          <$> seq 0 (length (storagetx.Extend atx)))
    ++ ((fun j => (Z.of_nat i, KChangeOwner, Z.of_nat j))
          <$> seq 0 (length (storagetx.ChangeOwner atx)))
    ++ ((fun j => (Z.of_nat i, KDelete, Z.of_nat j))
          <$> seq 0 (length (storagetx.Delete atx))).
Proof.
  unfold operationsOf. rewrite !fmap_app.
  repeat f_equal; by apply opId_imap.
Qed.

Lemma operationsOf_NoDup (i : nat) (from : Address)
    (atx : storagetx.ArkivTransaction) (created : list Hash) :
  NoDup (opId <$> operationsOf i from atx created).
Proof.
  rewrite operationsOf_ids.
  repeat (apply NoDup_app; split; [apply NoDup_ids|]; split;
          [intros x [j [-> _]]%list_elem_of_fmap;
           rewrite ?elem_of_app, !list_elem_of_fmap;
           intros Hx; repeat destruct Hx as [Hx|Hx];
           destruct Hx as [? [[=] _]]|]).
  apply NoDup_ids.
Qed.

Lemma operationsOf_elem (i : nat) (from : Address)
    (atx : storagetx.ArkivTransaction) (created : list Hash)
    (op : events.Operation) :
  op ∈ operationsOf i from atx created ->
  events.TxIndex op = Z.of_nat i
  /\ events.Expire op = None
  /\ exists j : nat, events.OpIndex op = Z.of_nat j
                    /\ builtFrom i from atx created j op.
Proof.
  unfold operationsOf. rewrite !elem_of_app.
  intros [Hin|[Hin|[Hin|[Hin|Hin]]]];
    apply elem_of_lookup_imap in Hin as (j & x & -> & Hx);
    (split; [done|]); (split; [done|]); exists j; (split; [done|]);
    unfold builtFrom; cbn.
  - destruct x as [c k]. apply lookup_zip_with_Some in Hx
      as (c' & k' & [= <- <-] & Hc & Hk). by exists c, k.
  - by exists x.
  - by exists x.
  - by exists x.
  - by exists x.
Qed.

(** ** One transaction of the loop *)

Lemma transactionStep_elem (i : nat) (transaction : Transaction)
    (rawReceipts : list Receipt) (new : list events.Operation) :
  transactionStep i transaction rawReceipts = Ok new ->
  forall op,
    op ∈ new
    <-> exists receipt atx from created,
          To transaction = Some ArkivProcessorAddress
          /\ rawReceipts !! i = Some receipt
          /\ Status receipt = ReceiptStatusSuccessful
          /\ UnpackArkivTransaction (Data transaction) = Ok atx
          /\ Sender transaction = Ok from
          /\ createdEntities receipt = Ok created
          /\ op ∈ operationsOf i from atx created.
Proof.
  unfold transactionStep.
  destruct (To transaction) as [to|] eqn:Hto;
    [|intros [= <-] op; split;
      [by intros ?%elem_of_nil|intros (?&?&?&?&?&?); congruence]].
  case_bool_decide as Hne;
    [intros [= <-] op; split;
     [by intros ?%elem_of_nil|intros (?&?&?&?&?&?); congruence]|].
  subst to.
  destruct (rawReceipts !! i) as [receipt|] eqn:Hr; [|done].
  case_bool_decide as Hst;
    [intros [= <-] op; split;
     [by intros ?%elem_of_nil|intros (?&?&?&?&?&?&?&?); congruence]|].
  destruct (UnpackArkivTransaction _) as [atx| |] eqn:Hatx; [|done..].
  destruct (Sender _) as [from| |] eqn:Hfrom; [|done..].
  destruct (createdEntities receipt) as [created| |] eqn:Hcr; [|done..].
  case_decide; [|done]. intros [= <-] op. split.
  - intros Hop. by exists receipt, atx, from, created.
  - intros (r & a & f & c & _ & Hr' & _ & Ha & Hf & Hc & Hop).
    assert (r = receipt) as -> by congruence.
    assert (a = atx) as -> by congruence.
    assert (f = from) as -> by congruence.
    assert (c = created) as -> by congruence.
    done.
Qed.

Lemma transactionStep_ids (i : nat) (transaction : Transaction)
    (rawReceipts : list Receipt) (new : list events.Operation) :
  transactionStep i transaction rawReceipts = Ok new ->
  NoDup (opId <$> new)
  /\ Forall (fun op => events.Expire op = None
                       /\ events.TxIndex op = Z.of_nat i) new.
Proof.
  intros Hstep.
  assert (Hcases : new = []
                   \/ exists from atx created,
                        new = operationsOf i from atx created).
  { revert Hstep. unfold transactionStep.
    repeat (case_match || case_bool_decide || case_decide);
      intros [= <-]; eauto. }
  destruct Hcases as [->|(from & atx & created & ->)].
  - split; [constructor|constructor].
  - split; [apply operationsOf_NoDup|].
    apply Forall_forall. intros op Hop.
    by destruct (operationsOf_elem _ _ _ _ _ Hop) as (? & ? & _).
Qed.

(** ** The loop over the transactions *)

Lemma transactionLoop_spec (rawReceipts : list Receipt)
    (transactions : list Transaction) :
  forall (pre : list Transaction) (ops ops' : list events.Operation),
    transactionLoop (length pre) transactions rawReceipts ops = Ok ops' ->
    exists new,
      ops' = ops ++ new
      /\ (forall op,
            op ∈ new
            <-> exists i, (length pre <= i)%nat
                          /\ fromTransactionAt (pre ++ transactions)
                                rawReceipts i op)
      /\ NoDup (opId <$> new)
      /\ Forall (fun op => events.Expire op = None
                           /\ Z.of_nat (length pre) <= events.TxIndex op)
                new.
Proof.
  induction transactions as [|transaction rest IH]; intros pre ops ops'.
  - cbn. intros [= <-]. exists []. rewrite !app_nil_r.
    split; [done|]. split; [|split; constructor].
    intros op. split; [by intros ?%elem_of_nil|].
    intros (i & Hi & tx & ? & ? & ? & ? & Hlook & _).
    apply lookup_lt_Some in Hlook. lia.
  - rewrite transactionLoop_cons.
    destruct (transactionStep (length pre) transaction rawReceipts)
      as [new1| |] eqn:Hstep; [|done..].
    replace (S (length pre)) with (length (pre ++ [transaction]))
      by (rewrite length_app; cbn; lia).
    intros Hloop.
    destruct (IH _ _ _ Hloop) as (new2 & -> & Hiff & Hnd & Hall).
    rewrite <- (app_assoc pre [transaction] rest) in Hiff.
    cbn [app] in Hiff.
    rewrite length_app in Hiff, Hall. cbn [length] in Hiff, Hall.
    destruct (transactionStep_ids _ _ _ _ Hstep) as (Hnd1 & Hall1).
    pose proof (transactionStep_elem _ _ _ _ Hstep) as Hiff1.
    exists (new1 ++ new2). rewrite <- app_assoc.
    split; [done|]. split; [|split].
    + intros op. rewrite elem_of_app, Hiff1, Hiff. split.
      * intros [(r & a & f & c & Hto & Hrest)|(i & Hi & Hat)].
        -- exists (length pre). split; [lia|].
           exists transaction, r, a, f, c. split; [|done].
           by rewrite list_lookup_middle.
        -- exists i. split; [lia|done].
      * intros (i & Hi & Hat).
        destruct (decide (i = length pre)) as [->|Hne].
        -- left. destruct Hat as (tx & r & a & f & c & Hlook & Hrest).
           rewrite list_lookup_middle in Hlook by done.
           injection Hlook as <-. by exists r, a, f, c.
        -- right. exists i. split; [lia|done].
    + rewrite fmap_app. apply NoDup_app. split; [done|]. split; [|done].
      intros id [op1 [-> Hop1]]%list_elem_of_fmap
                [op2 [Hid Hop2]]%list_elem_of_fmap.
      rewrite Forall_forall in Hall1, Hall.
      destruct (Hall1 _ Hop1) as [_ Ht1].
      destruct (Hall _ Hop2) as [_ Ht2].
      unfold opId in Hid. injection Hid as Ht _ _. lia.
    + apply Forall_app. split.
      * eapply Forall_impl; [exact Hall1|]. cbn. intros op [? ->]. split; [done|lia].
      * eapply Forall_impl; [exact Hall|]. cbn. intros op [? ?]. split; [done|lia].
Qed.

(** ** The expiration events of the first receipt *)

Lemma elem_of_indexed {A : Type} (l : list A) (p : nat * A) :
  p ∈ indexed l <-> l !! (fst p) = Some (snd p).
Proof.
  unfold indexed. rewrite elem_of_lookup_imap. split.
  - by intros (i & x & -> & Hx).
  - intros Hp. exists (fst p), (snd p). by destruct p.
Qed.

Lemma NoDup_indexed {A : Type} (l : list A) : NoDup (indexed l).
Proof.
  apply (NoDup_fmap_1 fst). unfold indexed. rewrite fmap_imap.
  rewrite (imap_ext _ (fun j _ => j)) by done.
  rewrite (imap_seq_0 l (fun j => j)), list_fmap_id. apply NoDup_seq.
Qed.

Lemma elem_of_expirationLogs (logs : list Log) (p : nat * Log) :
  p ∈ expirationLogs logs
  <-> logs !! (fst p) = Some (snd p) /\ isExpirationLog (snd p) = true.
Proof.
  unfold expirationLogs. rewrite list_elem_of_filter, elem_of_indexed.
  tauto.
Qed.

Lemma expireOperations_NoDup (logs : list Log) :
  NoDup (opId <$> (expireOperation <$> expirationLogs logs)).
Proof.
  rewrite <- list_fmap_compose.
  apply NoDup_fmap_2_strong.
  - intros p q [Hp _]%elem_of_expirationLogs [Hq _]%elem_of_expirationLogs.
    cbn. intros [= Hpq]. apply Nat2Z.inj in Hpq.
    destruct p as [i x], q as [j y]. cbn in *. subst j. congruence.
  - apply NoDup_filter, NoDup_indexed.
Qed.

End Derivation.

Section DerivedBlock.
Import types dbevents derived.
Context `{External} `{Codec}.

Lemma opKind_not_expire (op : events.Operation) :
  events.Expire op = None -> opKind op <> KExpire.
Proof.
  unfold opKind. intros ->.
  by destruct (events.Create op), (events.Update op), (events.ExtendBTL op),
    (events.ChangeOwner op), (events.Delete op).
Qed.

Lemma filter_Forall {A : Type} (P : A -> Prop) `{!forall x, Decision (P x)}
    (l : list A) :
  Forall P l -> filter P l = l.
Proof.
  induction 1 as [|x l Hx _ IH]; [done|].
  by rewrite filter_cons_True, IH.
Qed.

(** The whole operation list of a derived block: the Expire operations of
    the first receipt, then the operations of the transactions. *)
Lemma blockToEvents_operations (rawBlock : Block) (firstReceipt : Receipt)
    (rest : list Receipt) (bl : events.Block) :
  blockToEvents rawBlock (firstReceipt :: rest) = Ok bl ->
  events.Number bl = NumberU64 rawBlock
  /\ exists new,
      events.Operations bl
      = (expireOperation <$> expirationLogs (Logs firstReceipt)) ++ new
      /\ (forall op,
            op ∈ new
            <-> fromTransaction (Transactions rawBlock)
                  (firstReceipt :: rest) op)
      /\ NoDup (opId <$> new)
      /\ Forall (fun op => events.Expire op = None) new.
Proof.
  unfold blockToEvents.
  destruct (transactionLoop 0 _ _ _) as [ops| |] eqn:Hloop; [|done..].
  intros [= <-]. split; [done|].
  apply (transactionLoop_spec _ _ []) in Hloop
    as (new & -> & Hiff & Hnd & Hall).
  exists new. cbn [events.Operations]. rewrite expireLoop_spec.
  split; [done|]. split; [|split; [done|]].
  - intros op. rewrite Hiff. unfold fromTransaction. cbn [length app].
    split; [intros (i & _ & Hat); by exists i|].
    intros (i & Hat). exists i. split; [lia|done].
  - eapply Forall_impl; [exact Hall|]. by intros op [? _].
Qed.

(** C2 (amended). In a derived block, the operations that are not Expire
    operations are exactly those of the successful transactions addressed
    to the storage processor; each carries the index of its transaction as
    TxIndex and, as OpIndex, its position in the list of its own kind
    (the Creates, the Updates, the Extends, the ChangeOwners and the
    Deletes of a transaction are each counted from 0); and no two
    operations of the block share the triple of TxIndex, kind and
    OpIndex. *)
Theorem blockToEvents_transaction_operations (rawBlock : Block)
    (rawReceipts : list Receipt) (bl : events.Block) :
  blockToEvents rawBlock rawReceipts = Ok bl ->
  (forall op,
     op ∈ events.Operations bl /\ events.Expire op = None
     <-> fromTransaction (Transactions rawBlock) rawReceipts op)
  /\ (forall i from atx created op,
        op ∈ operationsOf i from atx created ->
        events.TxIndex op = Z.of_nat i
        /\ exists j : nat, events.OpIndex op = Z.of_nat j
                          /\ builtFrom i from atx created j op)
  /\ NoDup (opId <$> events.Operations bl).
Proof.
  intros Hbl. split; [|split].
  - destruct rawReceipts as [|firstReceipt rest].
    + injection Hbl as <-. cbn. intros op. split.
      * by intros [?%elem_of_nil _].
      * intros (i & tx & r & ? & ? & ? & _ & _ & Hr & _). done.
    + destruct (blockToEvents_operations _ _ _ _ Hbl)
        as (_ & new & -> & Hiff & _ & Hall).
      intros op. rewrite <- Hiff, elem_of_app. split.
      * intros [[Hexp|Hnew] Hnone]; [|done].
        apply list_elem_of_fmap in Hexp as (p & -> & _). done.
      * intros Hnew. split; [by right|].
        rewrite Forall_forall in Hall. by apply Hall.
  - intros i from atx created op Hop.
    by destruct (operationsOf_elem _ _ _ _ _ Hop) as (? & _ & ?).
  - destruct rawReceipts as [|firstReceipt rest].
    + injection Hbl as <-. constructor.
    + destruct (blockToEvents_operations _ _ _ _ Hbl)
        as (_ & new & -> & _ & Hnd & Hall).
      rewrite fmap_app. apply NoDup_app.
      split; [apply expireOperations_NoDup|]. split; [|done].
      intros id [op1 [-> Hop1]]%list_elem_of_fmap
                [op2 [Hid Hop2]]%list_elem_of_fmap.
      apply list_elem_of_fmap in Hop1 as (p & -> & _).
      rewrite Forall_forall in Hall.
      apply (opKind_not_expire op2); [by apply Hall|].
      unfold opId in Hid. by injection Hid as _ <- _.
Qed.

(** C3 (amended). The Expire operations of a derived block are, in log
    order, one per expiration log event of the first receipt (a log whose
    first topic is the expiration topic and whose data holds at least 32
    bytes); each has TxIndex 0, the entity key read from the first 32
    bytes of the log data, and as OpIndex the position of its log in the
    log list of the first receipt. The OpIndex values are 0, 1, 2, ...
    when every log of the first receipt is an expiration event. *)
Theorem blockToEvents_expire_operations (rawBlock : Block)
    (firstReceipt : Receipt) (rest : list Receipt) (bl : events.Block) :
  blockToEvents rawBlock (firstReceipt :: rest) = Ok bl ->
  (exists others,
     events.Operations bl
     = (expireOperation <$> expirationLogs (Logs firstReceipt)) ++ others
     /\ Forall (fun op => events.Expire op = None) others)
  /\ (forall p,
        p ∈ expirationLogs (Logs firstReceipt)
        <-> Logs firstReceipt !! (fst p) = Some (snd p)
            /\ isExpirationLog (snd p) = true)
  /\ (forall p,
        events.TxIndex (expireOperation p) = 0
        /\ events.OpIndex (expireOperation p) = Z.of_nat (fst p)
        /\ events.Expire (expireOperation p)
           = Some (BytesToHash (take 32 (LogData (snd p)))))
  /\ (Forall (fun log => isExpirationLog log = true) (Logs firstReceipt) ->
      events.OpIndex
        <$> (expireOperation <$> expirationLogs (Logs firstReceipt))
      = Z.of_nat <$> seq 0 (length (Logs firstReceipt))).
Proof.
  intros Hbl. split; [|split; [|split]].
  - destruct (blockToEvents_operations _ _ _ _ Hbl)
      as (_ & new & -> & _ & _ & Hall).
    by exists new.
  - apply elem_of_expirationLogs.
  - done.
  - intros Hall. unfold expirationLogs.
    rewrite filter_Forall; last first.
    { apply Forall_forall. intros p Hp%elem_of_indexed.
      rewrite Forall_forall in Hall. apply Hall.
      eapply list_elem_of_lookup_2, Hp. }
    rewrite <- list_fmap_compose. unfold indexed. rewrite fmap_imap.
    rewrite <- imap_seq_0. by apply imap_ext.
Qed.

End DerivedBlock.

Section DerivedBlockExamples.
Import types dbevents derived memory examples.

(** The block of the examples derives to three operations: the Expire of
    the second log of the first receipt, then the Create and the Update of
    the storage transaction at index 1. *)
Example blockToEvents_block7 :
  (fun bl => opId <$> events.Operations bl)
    <$> match blockToEvents block7 receipts7 with
        | Ok bl => Some bl
        | _ => None
        end
  = Some [(0, KExpire, 1); (1, KCreate, 0); (1, KUpdate, 0)].
Proof. vm_compute. reflexivity. Qed.

(** C2, as stated, fails: the Create and the Update of one successful
    storage transaction both carry TxIndex 1 and OpIndex 0. *)
Lemma blockToEvents_pair_not_unique_counterexample :
  exists bl,
    blockToEvents block7 receipts7 = Ok bl
    /\ ~ NoDup ((fun op => (events.TxIndex op, events.OpIndex op))
                  <$> events.Operations bl).
Proof.
  eexists. split; [vm_compute; reflexivity|].
  cbn. rewrite !NoDup_cons. intros (_ & Hnotin & _).
  apply Hnotin. by left.
Qed.

Lemma blockToEvents_transaction_operations_witness :
  exists bl,
    blockToEvents block7 receipts7 = Ok bl
    /\ (forall op,
          op ∈ events.Operations bl /\ events.Expire op = None
          <-> fromTransaction (Transactions block7) receipts7 op)
    /\ NoDup (opId <$> events.Operations bl).
Proof.
  eexists. split; [vm_compute; reflexivity|].
  match goal with
  | |- context [events.Operations ?b] =>
      destruct (blockToEvents_transaction_operations block7 receipts7 b)
        as (Hiff & _ & Hnd); [vm_compute; reflexivity|]
  end.
  split; [exact Hiff|exact Hnd].
Defined.

(** C3, as stated, fails: the first receipt holds one expiration event,
    in second position, and its Expire operation has OpIndex 1, not 0. *)
Lemma blockToEvents_expire_index_counterexample :
  exists bl,
    blockToEvents block7 receipts7 = Ok bl
    /\ events.OpIndex
         <$> filter (fun op => events.Expire op <> None)
               (events.Operations bl)
       = [1]
    /\ events.OpIndex
         <$> filter (fun op => events.Expire op <> None)
               (events.Operations bl)
       <> Z.of_nat <$> seq 0 1.
Proof.
  eexists. split; [vm_compute; reflexivity|].
  split; [vm_compute; reflexivity|]. vm_compute. discriminate.
Qed.

Lemma blockToEvents_expire_operations_witness :
  exists bl,
    blockToEvents block7 receipts7 = Ok bl
    /\ exists others,
        events.Operations bl
        = (expireOperation
             <$> expirationLogs
                   [otherLog; expiredLogOf (key x05) (owner x0c)])
          ++ others
        /\ Forall (fun op => events.Expire op = None) others.
Proof.
  eexists. split; [vm_compute; reflexivity|].
  match goal with
  | |- context [events.Operations ?b] =>
      destruct (blockToEvents_expire_operations block7
                  {| Status := ReceiptStatusSuccessful;
                     Logs := [otherLog;
                              expiredLogOf (key x05) (owner x0c)] |}
                  [ {| Status := ReceiptStatusSuccessful;
                       Logs := [createdLog (key x09)] |} ] b)
        as (Hops & _); [vm_compute; reflexivity|]
  end.
  exact Hops.
Defined.

End DerivedBlockExamples.

(** * The batch iterator *)

Section BatchIterator.
Import types dbevents derived.
Context `{External} `{Codec} {DB CC : Type} `{ChainDB DB CC}.

Lemma u64_small (v : Z) : 0 <= v < 2 ^ 64 -> u64 v = v.
Proof. intros Hv. unfold u64, uint64_modulus. by apply Z.mod_small. Qed.

Lemma heights_S (lastBlock : Z) (n : nat) :
  heights lastBlock (S n) = (lastBlock + 1) :: heights (lastBlock + 1) n.
Proof.
  unfold heights. cbn [seq fmap list_fmap]. f_equal; [lia|].
  rewrite <- fmap_S_seq, <- list_fmap_compose.
  apply list_fmap_ext. intros _ i _. cbn. lia.
Qed.



(** What the body of the loop needs to append a block. *)
Lemma readHeight_Some (db : DB) (chainConfig : CC) (number : Z)
    (b : events.Block) :
  readHeight db chainConfig number = Ok (Some b)
  <-> exists bl receipts block,
        ReadCanonicalHash db number <> zeroHash
        /\ ReadBlock db (ReadCanonicalHash db number) number = Some bl
        /\ ReadReceipts db (ReadCanonicalHash db number) (NumberU64 bl)
             (Time bl) chainConfig = Some receipts
        /\ ReadBlock db (BlockHash bl) (NumberU64 bl) = Some block
        /\ blockToEvents block receipts = Ok b.
Proof.
  unfold readHeight. split.
  - case_bool_decide as Hz; [done|].
    destruct (ReadBlock db _ number) as [bl|] eqn:Hbl; [|done].
    destruct (ReadReceipts _ _ _ _ _) as [receipts|] eqn:Hr; [|done].
    destruct (ReadBlock db (BlockHash bl) _) as [block|] eqn:Hblock;
      [|done].
    destruct (blockToEvents block receipts) as [b'| |] eqn:Hb; [|done..].
    intros [= <-]. exists bl, receipts, block. by repeat split.
  - intros (bl & receipts & block & Hz & -> & -> & -> & ->).
    by rewrite bool_decide_eq_false_2.
Qed.


(** A height whose canonical hash is there and whose block is not makes
    the iterator panic: the block read is dereferenced before it is
    compared with nil. *)
Lemma readHeight_missing_block (db : DB) (chainConfig : CC) (number : Z) :
  ReadCanonicalHash db number <> zeroHash ->
  ReadBlock db (ReadCanonicalHash db number) number = None ->
  readHeight db chainConfig number = Panic.
Proof.
  intros Hz Hbl. unfold readHeight.
  by rewrite bool_decide_eq_false_2, Hbl.
Qed.

(** The loop over the heights: it appends the blocks of the heights that
    derive, and ends at the first height that does not, or after [n]
    heights. *)
Lemma readLoop_spec (db : DB) (chainConfig : CC) (lastBlock : Z)
    (bs : list events.Block) :
  forall (n : nat) (i : Z) (blocks : list events.Block),
    0 <= lastBlock -> 0 <= i ->
    lastBlock + i + Z.of_nat n < 2 ^ 64 ->
    Forall2 (derivesAt db chainConfig)
            (heights (lastBlock + i) (length bs)) bs ->
    length bs = n
    \/ ((length bs < n)%nat
        /\ readHeight db chainConfig (lastBlock + i + Z.of_nat (length bs) + 1)
           = Ok None) ->
    readLoop db chainConfig lastBlock n i blocks = Ok (blocks ++ bs).
Proof.
  induction bs as [|b bs IH]; intros n i blocks Hl Hi Hn Hbs Hend.
  - rewrite app_nil_r. destruct Hend as [<-|[Hlt Hnone]]; [done|].
    destruct n as [|n]; [cbn in Hlt; lia|]. cbn [readLoop length] in *.
    rewrite (u64_small (lastBlock + i)) by lia.
    rewrite u64_small by lia.
    replace (lastBlock + i + Z.of_nat 0 + 1) with (lastBlock + i + 1)
      in Hnone by lia.
    by rewrite Hnone.
  - cbn [length] in Hbs, Hend. rewrite heights_S in Hbs.
    apply Forall2_cons in Hbs as [[Hb _] Hbs].
    destruct n as [|n]; [destruct Hend as [?|[? _]]; lia|].
    cbn [readLoop].
    rewrite (u64_small (lastBlock + i)) by lia.
    rewrite u64_small by lia. rewrite Hb.
    rewrite (IH n (i + 1) (blocks ++ [b])); try lia.
    + by rewrite <- app_assoc.
    + by replace (lastBlock + (i + 1)) with (lastBlock + i + 1) by lia.
    + destruct Hend as [Hlen|[Hlt Hnone]]; [left; lia|right].
      split; [lia|]. rewrite <- Hnone. f_equal. lia.
Qed.

Lemma last_heights (lastBlock : Z) (n : nat) :
  last (heights lastBlock (S n)) = Some (lastBlock + Z.of_nat (S n)).
Proof.
  unfold heights. rewrite seq_S, fmap_app.
  change (last (((fun i => lastBlock + 1 + Z.of_nat i) <$> seq 0 n)
                ++ [lastBlock + 1 + Z.of_nat (0 + n)])
          = Some (lastBlock + Z.of_nat (S n))).
  rewrite last_snoc. f_equal. lia.
Qed.

Lemma last_derived (db : DB) (chainConfig : CC) (lastBlock : Z)
    (bs : list events.Block) :
  Forall2 (derivesAt db chainConfig) (heights lastBlock (length bs)) bs ->
  events.Number <$> bs = heights lastBlock (length bs)
  /\ (events.Number <$> last bs
      = if decide (bs = []) then None
        else Some (lastBlock + Z.of_nat (length bs))).
Proof.
  intros Hbs.
  assert (Hnum : events.Number <$> bs = heights lastBlock (length bs)).
  { symmetry. apply list_eq_Forall2.
    apply Forall2_fmap_r. eapply Forall2_impl; [exact Hbs|].
    intros k b [_ Hk]. by symmetry. }
  split; [done|].
  rewrite <- fmap_last, Hnum.
  destruct bs as [|b bs]; [done|].
  rewrite decide_False by done. cbn [length]. apply last_heights.
Qed.


Lemma readBatch_gap (db : DB) (chainConfig : CC) (lastBlock head : Z) :
  0 <= lastBlock -> lastBlock < head < 2 ^ 64 ->
  readBatch db chainConfig lastBlock head
  = readLoop db chainConfig lastBlock
      (Z.to_nat (Z.min 100 (head - lastBlock))) 0 [].
Proof.
  intros Hl Hh. unfold readBatch.
  rewrite bool_decide_eq_false_2 by lia.
  by rewrite u64_small by lia.
Qed.

(** What a pass yields when the heights after [lastBlock] derive to
    [blocks] and the loop ends there. *)
Lemma pass_blocks (db : DB) (chainConfig : CC) (lastBlock head : Z)
    (blocks : list events.Block) :
  readBatch db chainConfig lastBlock head = Ok blocks ->
  Forall2 (derivesAt db chainConfig)
          (heights lastBlock (length blocks)) blocks ->
  pass db chainConfig lastBlock head
  = match blocks with
    | [] => PassContinue
    | _ => PassYield {| events.Blocks := blocks |}
                     (lastBlock + Z.of_nat (length blocks))
    end.
Proof.
  intros Hread Hbs. unfold pass. rewrite Hread.
  destruct (last_derived _ _ _ _ Hbs) as [_ Hlast].
  destruct blocks as [|b bs]; [done|].
  rewrite decide_False in Hlast by done.
  destruct (last (b :: bs)) as [final|]; [|done].
  by injection Hlast as ->.
Qed.



(** Whatever the database holds, the blocks that the loop returns are those
    derived at consecutive heights, from the first height on, with no height
    skipped. *)
Lemma readLoop_sound (db : DB) (chainConfig : CC) (lastBlock : Z) (n : nat) :
  forall (i : Z) (blocks out : list events.Block),
    0 <= lastBlock -> 0 <= i ->
    lastBlock + i + Z.of_nat n < 2 ^ 64 ->
    readLoop db chainConfig lastBlock n i blocks = Ok out ->
    exists bs,
      out = blocks ++ bs
      /\ (length bs <= n)%nat
      /\ Forall2 (fun k b => readHeight db chainConfig k = Ok (Some b))
                 (heights (lastBlock + i) (length bs)) bs.
Proof.
  induction n as [|n IH]; intros i blocks out Hl Hi Hn.
  - cbn. intros [= <-]. exists []. rewrite app_nil_r.
    split; [done|]. split; [done|constructor].
  - cbn [readLoop].
    rewrite (u64_small (lastBlock + i)) by lia.
    rewrite u64_small by lia.
    destruct (readHeight db chainConfig (lastBlock + i + 1))
      as [[b|]| |] eqn:Hread; [| |done..].
    + intros Hloop. apply IH in Hloop as (bs & -> & Hlen & Hbs); [|lia..].
      exists (b :: bs). rewrite <- app_assoc. split; [done|].
      split; [cbn; lia|]. cbn [length]. rewrite heights_S.
      constructor; [done|].
      by replace (lastBlock + i + 1) with (lastBlock + (i + 1)) by lia.
    + intros [= <-]. exists []. rewrite app_nil_r.
      split; [done|]. split; [cbn; lia|constructor].
Qed.

(** A batch that is yielded holds the blocks derived at the heights
    lastBlock + 1, lastBlock + 2, ... in order, at least one and at most
    100 of them, none above the head. *)
Lemma pass_yield_sound (db : DB) (chainConfig : CC) (lastBlock head : Z)
    (batch : events.BlockBatch) (lastBlock' : Z) :
  0 <= lastBlock -> head < 2 ^ 64 ->
  pass db chainConfig lastBlock head = PassYield batch lastBlock' ->
  let blocks := events.Blocks batch in
  (0 < length blocks <= 100)%nat
  /\ lastBlock + Z.of_nat (length blocks) <= head
  /\ Forall2 (fun k b => readHeight db chainConfig k = Ok (Some b))
             (heights lastBlock (length blocks)) blocks
  /\ events.Number <$> last blocks = Some lastBlock'.
Proof.
  intros Hl Hh. unfold pass, readBatch.
  case_bool_decide as Hle; [done|].
  rewrite u64_small by lia.
  destruct (readLoop _ _ _ _ _ _) as [out| |] eqn:Hloop; [|done..].
  apply readLoop_sound in Hloop as (bs & -> & Hlen & Hbs); [|lia..].
  cbn [app] in *.
  destruct (last bs) as [final|] eqn:Hlast; [|done].
  intros [= <- <-]. cbn.
  replace (lastBlock + 0) with lastBlock in Hbs by lia.
  rewrite Hlast. split; [|split; [lia|done]].
  split; [|lia]. destruct bs; [done|cbn; lia].
Qed.

End BatchIterator.

Section BatchIteratorExamples.
Import types dbevents derived memory examples.




(** When the first height of the gap is the missing one, nothing is
    yielded. *)
Example pass_first_height_missing :
  pass (1 : Z) tt 1 2 = PassContinue.
Proof. vm_compute. reflexivity. Qed.


(** The iterator resumed at checkpoint 0 and woken three times, with heads
    150, 150 and 230 on a chain of 200 blocks, yields the heights 1..100,
    then 101..150, then 151..200, and ends with lastBlock 200. *)
Example batchIterator_three_wakeups :
  match batchIterator (fun _ => true) 0
          [(200, tt, 150); (200, tt, 150); (200, tt, 230)] with
  | Ok (batches, lastBlock) =>
      ((fun batch => (length (events.Blocks batch),
                      events.Number <$> head (events.Blocks batch),
                      events.Number <$> last (events.Blocks batch)))
         <$> batches,
       lastBlock)
  | _ => ([], -1)
  end
  = ([(100%nat, Some 1, Some 100); (50%nat, Some 101, Some 150);
      (50%nat, Some 151, Some 200)], 200).
Proof. vm_compute. reflexivity. Qed.

End BatchIteratorExamples.

(** * Validation of a storage transaction *)

Section Validation.
Import storagetx validation.
Context {S R : Type}.

(** C9. A payload that decodes to a transaction of more than 1000
    operations, over its five lists, is rejected with OperationCountExceeded
    and the count of its operations; the state is returned as it was, and
    the transaction is not applied. *)
Theorem Process_rejects_too_many_operations
    (decode : list byte -> option ArkivTransaction)
    (apply : ArkivTransaction -> S -> S * R)
    (payload : list byte) (tx : ArkivTransaction) (state : S) :
  decode payload = Some tx ->
  (1000 < operationCount tx)%nat ->
  Process decode apply payload state
  = (state, inl (OperationCountExceeded (operationCount tx))).
Proof.
  intros Hdec Hcount. unfold Process, Validate, MaxOperations.
  rewrite Hdec. by rewrite bool_decide_eq_false_2 by lia.
Qed.

(** A transaction within the limit is applied. *)
Lemma Process_applies_within_limit
    (decode : list byte -> option ArkivTransaction)
    (apply : ArkivTransaction -> S -> S * R)
    (payload : list byte) (tx : ArkivTransaction) (state : S) :
  decode payload = Some tx ->
  (operationCount tx <= 1000)%nat ->
  Process decode apply payload state
  = (fst (apply tx state), inr (snd (apply tx state))).
Proof.
  intros Hdec Hcount. unfold Process, Validate, MaxOperations.
  rewrite Hdec. rewrite bool_decide_eq_true_2 by lia.
  by destruct (apply tx state).
Qed.

End Validation.

Section ValidationExamples.
Import storagetx validation memory examples.

Lemma Process_rejects_too_many_operations_witness :
  Process (fun _ => Some tooManyOperations)
          (fun (tx : ArkivTransaction) (s : MemDB) =>
             (entityexpiration.Add s 1 (key x01), tt))
          [] empty
  = (empty, inl (OperationCountExceeded 2001)).
Proof.
  apply (Process_rejects_too_many_operations
           (fun _ => Some tooManyOperations)
           (fun (tx : ArkivTransaction) (s : MemDB) =>
              (entityexpiration.Add s 1 (key x01), tt))
           [] tooManyOperations empty).
  - reflexivity.
  - vm_compute. lia.
Defined.

End ValidationExamples.

(** * More on the metadata word *)

Section MetaDataWordMore.
Import entity.

Lemma byte_of_Z_of_byte (v : Z) (b : byte) :
  v mod 256 = Z_of_byte b -> byte_of_Z v = b.
Proof.
  intros Hv. unfold byte_of_Z. rewrite Hv. unfold Z_of_byte.
  by rewrite N2Z.id, Byte.of_to_N.
Qed.

(** The integer read from eight bytes, as a sum. *)
Lemma Uint64_sum (b0 b1 b2 b3 b4 b5 b6 b7 : byte) (rest : list byte) :
  Uint64 (b0 :: b1 :: b2 :: b3 :: b4 :: b5 :: b6 :: b7 :: rest)
  = Z_of_byte b7 + Z_of_byte b6 * 2 ^ 8 + Z_of_byte b5 * 2 ^ 16
    + Z_of_byte b4 * 2 ^ 24 + Z_of_byte b3 * 2 ^ 32 + Z_of_byte b2 * 2 ^ 40
    + Z_of_byte b1 * 2 ^ 48 + Z_of_byte b0 * 2 ^ 56.
Proof.
  unfold Uint64, at_. cbn [nth].
  pose proof (Z_of_byte_range b0). pose proof (Z_of_byte_range b1).
  pose proof (Z_of_byte_range b2). pose proof (Z_of_byte_range b3).
  pose proof (Z_of_byte_range b4). pose proof (Z_of_byte_range b5).
  pose proof (Z_of_byte_range b6). pose proof (Z_of_byte_range b7).
  rewrite (lor_shiftl_add (Z_of_byte b7) _ 8) by lia.
  do 6 (rewrite (lor_shiftl_add (_ + _) _ _) by lia).
  reflexivity.
Qed.

Lemma PutUint64_Uint64 (b : list byte) :
  length b = 8%nat -> PutUint64 (replicate 8 x00) (Uint64 b) = b.
Proof.
  intros Hb. do 9 (destruct b as [|? b]; try discriminate Hb).
  rewrite Uint64_sum. unfold PutUint64, copy. cbn [length replicate take drop app].
  pose proof (Z_of_byte_range b0). pose proof (Z_of_byte_range b1).
  pose proof (Z_of_byte_range b2). pose proof (Z_of_byte_range b3).
  pose proof (Z_of_byte_range b4). pose proof (Z_of_byte_range b5).
  pose proof (Z_of_byte_range b6). pose proof (Z_of_byte_range b7).
  repeat f_equal; apply byte_of_Z_of_byte;
    rewrite ?Z.shiftr_div_pow2 by lia; Z.div_mod_to_equations; lia.
Qed.

Lemma Uint64_bound (b : list byte) : 0 <= Uint64 b < 2 ^ 64.
Proof.
  unfold Uint64, at_.
  pose proof (Z_of_byte_range (nth 0 b x00)).
  pose proof (Z_of_byte_range (nth 1 b x00)).
  pose proof (Z_of_byte_range (nth 2 b x00)).
  pose proof (Z_of_byte_range (nth 3 b x00)).
  pose proof (Z_of_byte_range (nth 4 b x00)).
  pose proof (Z_of_byte_range (nth 5 b x00)).
  pose proof (Z_of_byte_range (nth 6 b x00)).
  pose proof (Z_of_byte_range (nth 7 b x00)).
  rewrite (lor_shiftl_add (Z_of_byte (nth 7 b x00)) _ 8) by lia.
  do 6 (rewrite (lor_shiftl_add (_ + _) _ _) by lia).
  lia.
Qed.

(** X1. Whatever 32-byte or other word is decoded, [Unmarshal] yields a
    record with a 20-byte owner and an expiry within uint64. *)
Theorem Unmarshal_well_formed (hash : Hash) :
  is_address (Owner (Unmarshal hash))
  /\ 0 <= ExpiresAtBlock (Unmarshal hash) < 2 ^ 64.
Proof.
  split; [apply BytesToAddress_length | apply Uint64_bound].
Qed.

Lemma Marshal_Unmarshal_layout (hash : Hash) :
  is_hash hash ->
  Marshal (Unmarshal hash)
  = take 20 hash ++ replicate 4 x00 ++ drop 24 hash.
Proof.
  intros Hh. rewrite Marshal_layout by apply BytesToAddress_length.
  unfold Unmarshal. cbn [Owner ExpiresAtBlock].
  rewrite BytesToAddress_address, PutUint64_Uint64; [done| |].
  - rewrite length_drop, Hh. reflexivity.
  - unfold is_address. rewrite length_take, Hh. reflexivity.
Qed.

(** X2. Decoding a 32-byte word and encoding the record again gives the
    word back exactly when its bytes 20 to 23, which the record does not
    hold, are zero; [Marshal] always writes them as zero. *)
Theorem Marshal_Unmarshal (hash : Hash) :
  is_hash hash ->
  (Marshal (Unmarshal hash) = hash
   <-> take 4 (drop 20 hash) = replicate 4 x00).
Proof.
  intros Hh. rewrite Marshal_Unmarshal_layout by done.
  assert (Hsplit : hash = take 20 hash ++ take 4 (drop 20 hash)
                          ++ drop 24 hash).
  { rewrite <- (take_drop 20 hash) at 1. f_equal.
    rewrite <- (take_drop 4 (drop 20 hash)) at 1. f_equal.
    by rewrite drop_drop. }
  assert (Hm : length (take 4 (drop 20 hash)) = 4%nat).
  { rewrite length_take, length_drop, Hh. reflexivity. }
  revert Hsplit Hm.
  generalize (take 20 hash) (take 4 (drop 20 hash)) (drop 24 hash).
  intros a m c Hsplit Hm. clear Hh. subst hash. split.
  - intros Heq. apply app_inv_head in Heq.
    apply app_inj_1 in Heq as [Heq _]; [done|].
    by rewrite length_replicate.
  - by intros ->.
Qed.

Lemma Marshal_Unmarshal_witness :
  Marshal (Unmarshal (Marshal {| Owner := memory.owner x0a;
                                 ExpiresAtBlock := 77 |}))
  = Marshal {| Owner := memory.owner x0a; ExpiresAtBlock := 77 |}.
Proof.
  apply Marshal_Unmarshal; reflexivity.
Defined.

Lemma Marshal_eq_zeroHash (emd : EntityMetaData) :
  is_address (Owner emd) -> 0 <= ExpiresAtBlock emd < 2 ^ 64 ->
  Marshal emd = zeroHash ->
  emd = {| Owner := zeroAddress; ExpiresAtBlock := 0 |}.
Proof.
  intros Ho He Hz. rewrite <- (Unmarshal_Marshal_eq emd) by done.
  by rewrite Hz.
Qed.

(** X3. Among the records with a 20-byte owner and a uint64 expiry, the
    only one whose word is all-zero, the word that an unset slot reads as,
    is the record of the zero address with expiry 0. *)
Theorem Marshal_zeroHash (emd : EntityMetaData) :
  is_address (Owner emd) -> 0 <= ExpiresAtBlock emd < 2 ^ 64 ->
  (Marshal emd = zeroHash
   <-> emd = {| Owner := zeroAddress; ExpiresAtBlock := 0 |}).
Proof.
  intros Ho He. split.
  - by apply Marshal_eq_zeroHash.
  - intros ->. reflexivity.
Qed.

Lemma Marshal_zeroHash_witness :
  Marshal {| Owner := memory.owner x0a; ExpiresAtBlock := 10 |} = zeroHash
  <-> {| Owner := memory.owner x0a; ExpiresAtBlock := 10 |}
      = {| Owner := zeroAddress; ExpiresAtBlock := 0 |}.
Proof.
  apply Marshal_zeroHash; [reflexivity | cbn; lia].
Defined.

End MetaDataWordMore.

(** * More on the entity store *)

Section EntityStoreMore.
Import entity.
Context `{External} {S : Type} `{StateAccess S} `{ExpirationIndex S}
        `{!StateAccessLaws S}.

Lemma ExtendBTL_with_success (get : S -> Hash -> result EntityMetaData)
    (access access1 access2 : S) (entityKey : Hash) (numberOfBlocks : Z)
    (emd : EntityMetaData) :
  get access entityKey = Ok emd ->
  RemoveFromEntitiesToExpire access (ExpiresAtBlock emd) entityKey
    = (access1, Ok tt) ->
  AddToEntitiesToExpireAtBlock access1
    (u64 (ExpiresAtBlock emd + numberOfBlocks)) entityKey = (access2, Ok tt) ->
  ExtendBTL_with get access entityKey numberOfBlocks
  = (SetState access2 ArkivProcessorAddress (metaSlot entityKey)
       (Marshal {| Owner := Owner emd;
                   ExpiresAtBlock :=
                     u64 (ExpiresAtBlock emd + numberOfBlocks) |}),
     Ok (ExpiresAtBlock emd, Owner emd)).
Proof.
  intros Hget Hrm Hadd. unfold ExtendBTL_with. rewrite Hget, Hrm.
  cbn [Owner ExpiresAtBlock]. by rewrite Hadd.
Qed.

Lemma u64_range (v : Z) : 0 <= u64 v < 2 ^ 64.
Proof. unfold u64, uint64_modulus. apply Z.mod_pos_bound. lia. Qed.

(** X4. A record with a 20-byte owner and a uint64 expiry that
    [StoreEntityMetaData] wrote is read back unchanged by
    [GetEntityMetaData], without error. *)
Theorem StoreEntityMetaData_read_back (access : S) (key : Hash)
    (emd : EntityMetaData) :
  is_address (Owner emd) -> 0 <= ExpiresAtBlock emd < 2 ^ 64 ->
  snd (StoreEntityMetaData access key emd) = Ok tt
  /\ GetEntityMetaData (fst (StoreEntityMetaData access key emd)) key
     = Ok emd.
Proof.
  intros Ho He. split; [done|].
  unfold GetEntityMetaData, StoreEntityMetaData. cbn [fst].
  rewrite GetState_SetState_eq. by rewrite Unmarshal_Marshal_eq.
Qed.

(** X5. Writing or clearing the metadata of one key leaves the metadata of
    every key with another slot as it was. *)
Theorem metadata_of_other_keys_kept (access : S) (key key' : Hash)
    (emd : EntityMetaData) :
  metaSlot key <> metaSlot key' ->
  GetEntityMetaData (fst (StoreEntityMetaData access key emd)) key'
    = GetEntityMetaData access key'
  /\ GetEntityMetaData (DeleteEntityMetadata access key) key'
     = GetEntityMetaData access key'.
Proof.
  intros Hne.
  unfold GetEntityMetaData, StoreEntityMetaData, DeleteEntityMetadata.
  cbn [fst]. rewrite !GetState_SetState_ne by congruence. done.
Qed.

(** X6. The reader that tests for the zero word finds every stored record
    except the one of the zero address with expiry 0, which it reports as
    not found: that record is stored as the word of an unset slot. *)
Theorem GetEntityMetaData_checked_stored (access : S) (key : Hash)
    (emd : EntityMetaData) :
  is_address (Owner emd) -> 0 <= ExpiresAtBlock emd < 2 ^ 64 ->
  let access' := fst (StoreEntityMetaData access key emd) in
  (emd <> {| Owner := zeroAddress; ExpiresAtBlock := 0 |} ->
   GetEntityMetaData_checked access' key = Ok emd)
  /\ (emd = {| Owner := zeroAddress; ExpiresAtBlock := 0 |} ->
      GetEntityMetaData_checked access' key
      = Err (Errorf "failed to retrieve entity metadata for key %s"
                    [ArgBytes key])).
Proof.
  intros Ho He access'.
  assert (Hword : GetState access' ArkivProcessorAddress (metaSlot key)
                  = Marshal emd).
  { unfold access', StoreEntityMetaData. cbn [fst].
    apply GetState_SetState_eq. }
  unfold GetEntityMetaData_checked. rewrite Hword. split.
  - intros Hne. rewrite decide_False.
    + by rewrite Unmarshal_Marshal_eq.
    + intros Hz. apply Hne. by apply Marshal_eq_zeroHash.
  - intros ->. by rewrite decide_True.
Qed.

(** X7. When [Delete] succeeds, the owner it returns is the one decoded
    from the metadata word of the key, and afterwards that word is all-zero:
    the reader that tests for the zero word no longer finds the key. *)
Theorem Delete_clears_metadata (access access' : S) (toDelete : Hash)
    (owner : Address) :
  Delete access toDelete = (access', Ok owner) ->
  owner = Owner (Unmarshal (GetState access ArkivProcessorAddress
                              (metaSlot toDelete)))
  /\ GetState access' ArkivProcessorAddress (metaSlot toDelete) = zeroHash
  /\ GetEntityMetaData_checked access' toDelete
     = Err (Errorf "failed to retrieve entity metadata for key %s"
                   [ArgBytes toDelete]).
Proof.
  unfold Delete, Delete_with, GetEntityMetaData.
  destruct (RemoveFromEntitiesToExpire _ _ _) as [access1 [[]| |]]; try done.
  intros [= <- <-]. split; [done|].
  assert (Hz : GetState (DeleteEntityMetadata access1 toDelete)
                 ArkivProcessorAddress (metaSlot toDelete) = zeroHash)
    by apply GetState_SetState_eq.
  split; [done|].
  unfold GetEntityMetaData_checked. rewrite Hz. by rewrite decide_True.
Qed.

(** X8. [ExtendBTL] with the reader that tests for the zero word, on a
    key whose metadata slot reads as the all-zero word: it returns the
    error of the reader as it is, without wrapping it as [Delete] does,
    whatever the expiration index and the number of blocks are, and the
    state is the one it was given. *)
Theorem ExtendBTL_with_checked_unset_slot (access : S) (entityKey : Hash)
    (numberOfBlocks : Z) :
  GetState access ArkivProcessorAddress (metaSlot entityKey) = zeroHash ->
  ExtendBTL_with GetEntityMetaData_checked access entityKey numberOfBlocks
  = (access,
     Err (Errorf "failed to retrieve entity metadata for key %s"
                 [ArgBytes entityKey])).
Proof.
  intros Hz. unfold ExtendBTL_with, GetEntityMetaData_checked.
  rewrite Hz. by rewrite decide_True.
Qed.

(** X9. Two extensions in a row add up: after [ExtendBTL key n] on an
    entity expiring at h, [ExtendBTL key m] returns the expiry
    (h + n) mod 2^64 that the first call stored, keeps the owner, and
    stores the expiry (h + n + m) mod 2^64. *)
Theorem ExtendBTL_twice (access access1 access2 access4 access5 : S)
    (entityKey : Hash) (n m : Z) (o : Address) (h : Z) :
  GetEntityMetaData access entityKey
    = Ok {| Owner := o; ExpiresAtBlock := h |} ->
  RemoveFromEntitiesToExpire access h entityKey = (access1, Ok tt) ->
  AddToEntitiesToExpireAtBlock access1 (u64 (h + n)) entityKey
    = (access2, Ok tt) ->
  let access3 := fst (ExtendBTL access entityKey n) in
  RemoveFromEntitiesToExpire access3 (u64 (h + n)) entityKey
    = (access4, Ok tt) ->
  AddToEntitiesToExpireAtBlock access4 (u64 (h + n + m)) entityKey
    = (access5, Ok tt) ->
  ExtendBTL access3 entityKey m
  = (SetState access5 ArkivProcessorAddress (metaSlot entityKey)
       (Marshal {| Owner := o; ExpiresAtBlock := u64 (h + n + m) |}),
     Ok (u64 (h + n), o)).
Proof.
  intros Hget Hrm Hadd access3 Hrm' Hadd'.
  destruct (GetEntityMetaData_Ok _ _ _ Hget) as (_ & Ho & _).
  cbn [Owner] in Ho.
  assert (Hfirst : ExtendBTL access entityKey n
                   = (SetState access2 ArkivProcessorAddress
                        (metaSlot entityKey)
                        (Marshal {| Owner := o;
                                    ExpiresAtBlock := u64 (h + n) |}),
                      Ok (h, o))).
  { unfold ExtendBTL.
    by rewrite (ExtendBTL_with_success GetEntityMetaData access access1
                  access2 entityKey n _ Hget Hrm Hadd). }
  assert (Hget3 : GetEntityMetaData access3 entityKey
                  = Ok {| Owner := o; ExpiresAtBlock := u64 (h + n) |}).
  { unfold access3. rewrite Hfirst. cbn [fst]. unfold GetEntityMetaData.
    rewrite GetState_SetState_eq.
    rewrite Unmarshal_Marshal_eq; [done|done|apply u64_range]. }
  assert (Hsum : u64 (u64 (h + n) + m) = u64 (h + n + m)).
  { unfold u64, uint64_modulus. by rewrite Zplus_mod_idemp_l. }
  unfold ExtendBTL.
  rewrite (ExtendBTL_with_success GetEntityMetaData access3 access4 access5
             entityKey m _ Hget3).
  - cbn [Owner ExpiresAtBlock]. by rewrite Hsum.
  - done.
  - cbn [ExpiresAtBlock]. by rewrite Hsum.
Qed.

(** What [Store] does, by the result of the index. *)
Lemma Store_steps (access access' : S) (key : Hash) (sender : Address)
    (emd : EntityMetaData) (payload : list byte) (r : result unit) :
  AddToEntitiesToExpireAtBlock
    (SetState access ArkivProcessorAddress (metaSlot key) (Marshal emd))
    (ExpiresAtBlock emd) key = (access', r) ->
  Store access key sender emd payload
  = (access',
     match r with
     | Ok _ => Ok tt
     | Err err =>
         Err (Wrapf "failed to add entity to entities to expire: %w" [] err)
     | Panic => Panic
     end).
Proof.
  intros Hadd. unfold Store, StoreEntityMetaData. rewrite Hadd.
  by destruct r as [[]| |].
Qed.

(** X10. [Store] writes the metadata word before it schedules the expiry
    and does not undo the write: its error is nil or wraps the error of
    the index, never one of the metadata write; and, the index leaving the
    metadata slot alone, the state that [Store] returns holds the record
    under the key, also when [Store] reports a failure. *)
Theorem Store_writes_before_scheduling (access access' : S) (key : Hash)
    (sender : Address) (emd : EntityMetaData) (payload : list byte)
    (r : result unit) :
  is_address (Owner emd) -> 0 <= ExpiresAtBlock emd < 2 ^ 64 ->
  let written :=
    SetState access ArkivProcessorAddress (metaSlot key) (Marshal emd) in
  AddToEntitiesToExpireAtBlock written (ExpiresAtBlock emd) key
    = (access', r) ->
  GetState access' ArkivProcessorAddress (metaSlot key)
    = GetState written ArkivProcessorAddress (metaSlot key) ->
  Store access key sender emd payload
  = (access',
     match r with
     | Ok _ => Ok tt
     | Err err =>
         Err (Wrapf "failed to add entity to entities to expire: %w" [] err)
     | Panic => Panic
     end)
  /\ GetEntityMetaData access' key = Ok emd.
Proof.
  intros Ho He written Hadd Hframe. split; [by apply Store_steps|].
  unfold GetEntityMetaData. rewrite Hframe. unfold written.
  rewrite GetState_SetState_eq. by rewrite Unmarshal_Marshal_eq.
Qed.

(** X11. An entity that [Store] stored is deleted from the bucket it was
    scheduled in: [Delete] after a successful [Store] removes the key from
    the bucket of the stored expiry, clears the metadata word and returns
    the stored owner. *)
Theorem Store_then_Delete (access access1 access2 : S) (key : Hash)
    (sender : Address) (emd : EntityMetaData) (payload : list byte) :
  is_address (Owner emd) -> 0 <= ExpiresAtBlock emd < 2 ^ 64 ->
  AddToEntitiesToExpireAtBlock
    (SetState access ArkivProcessorAddress (metaSlot key) (Marshal emd))
    (ExpiresAtBlock emd) key = (access1, Ok tt) ->
  GetState access1 ArkivProcessorAddress (metaSlot key) = Marshal emd ->
  RemoveFromEntitiesToExpire access1 (ExpiresAtBlock emd) key
    = (access2, Ok tt) ->
  snd (Store access key sender emd payload) = Ok tt
  /\ Delete (fst (Store access key sender emd payload)) key
     = (SetState access2 ArkivProcessorAddress (metaSlot key) zeroHash,
        Ok (Owner emd)).
Proof.
  intros Ho He Hadd Hword Hrm.
  rewrite (Store_steps access access1 key sender emd payload (Ok tt) Hadd).
  cbn [fst snd]. split; [done|]. unfold Delete.
  apply Delete_with_present; [|done].
  unfold GetEntityMetaData. rewrite Hword. by rewrite Unmarshal_Marshal_eq.
Qed.

End EntityStoreMore.

Section EntityStoreMoreExamples.
Import entity memory examples.

#[local] Existing Instance memory_stateAccessLaws.

Lemma StoreEntityMetaData_read_back_witness :
  let emd := {| Owner := owner x0a; ExpiresAtBlock := 10 |} in
  snd (StoreEntityMetaData empty (key x01) emd) = Ok tt
  /\ GetEntityMetaData (fst (StoreEntityMetaData empty (key x01) emd))
       (key x01) = Ok emd.
Proof.
  apply (StoreEntityMetaData_read_back (S := MemDB)); [reflexivity|cbn; lia].
Defined.

Lemma metadata_of_other_keys_kept_witness :
  GetEntityMetaData
    (fst (StoreEntityMetaData oneEntity (key x02)
            {| Owner := owner x0b; ExpiresAtBlock := 20 |})) (key x01)
  = GetEntityMetaData oneEntity (key x01)
  /\ GetEntityMetaData (DeleteEntityMetadata oneEntity (key x02)) (key x01)
     = GetEntityMetaData oneEntity (key x01).
Proof.
  apply (metadata_of_other_keys_kept (S := MemDB)).
  vm_compute. discriminate.
Defined.

Lemma GetEntityMetaData_checked_stored_witness :
  let emd := {| Owner := owner x0a; ExpiresAtBlock := 10 |} in
  emd <> {| Owner := zeroAddress; ExpiresAtBlock := 0 |}
  /\ GetEntityMetaData_checked
       (fst (StoreEntityMetaData empty (key x01) emd)) (key x01) = Ok emd.
Proof.
  assert (Hne : {| Owner := owner x0a; ExpiresAtBlock := 10 |}
                <> {| Owner := zeroAddress; ExpiresAtBlock := 0 |})
    by discriminate.
  split; [exact Hne|].
  apply (GetEntityMetaData_checked_stored (S := MemDB) empty (key x01)
           {| Owner := owner x0a; ExpiresAtBlock := 10 |});
    [reflexivity|cbn; lia|exact Hne].
Defined.

Lemma Delete_clears_metadata_witness :
  owner x0a
  = Owner (Unmarshal (GetState oneEntity ArkivProcessorAddress
                        (metaSlot (key x01))))
  /\ GetState (fst (Delete oneEntity (key x01))) ArkivProcessorAddress
       (metaSlot (key x01)) = zeroHash
  /\ GetEntityMetaData_checked (fst (Delete oneEntity (key x01))) (key x01)
     = Err (Errorf "failed to retrieve entity metadata for key %s"
                   [ArgBytes (key x01)]).
Proof.
  apply (Delete_clears_metadata (S := MemDB) oneEntity
           (fst (Delete oneEntity (key x01))) (key x01) (owner x0a)).
  vm_compute. reflexivity.
Defined.

Lemma ExtendBTL_with_checked_unset_slot_witness :
  ExtendBTL_with GetEntityMetaData_checked oneEntity (key x02) 5
  = (oneEntity,
     Err (Errorf "failed to retrieve entity metadata for key %s"
                 [ArgBytes (key x02)])).
Proof.
  apply (ExtendBTL_with_checked_unset_slot (S := MemDB) oneEntity (key x02) 5).
  vm_compute. reflexivity.
Defined.

Lemma ExtendBTL_twice_witness :
  snd (ExtendBTL (fst (ExtendBTL oneEntity (key x01) 5)) (key x01) 7)
  = Ok (15, owner x0a)
  /\ GetEntityMetaData
       (fst (ExtendBTL (fst (ExtendBTL oneEntity (key x01) 5)) (key x01) 7))
       (key x01)
     = Ok {| Owner := owner x0a; ExpiresAtBlock := 22 |}.
Proof.
  pose proof (ExtendBTL_twice (S := MemDB) oneEntity
    (entityexpiration.Remove oneEntity 10 (key x01))
    (entityexpiration.Add (entityexpiration.Remove oneEntity 10 (key x01))
       15 (key x01))
    (entityexpiration.Remove (fst (ExtendBTL oneEntity (key x01) 5)) 15
       (key x01))
    (entityexpiration.Add
       (entityexpiration.Remove (fst (ExtendBTL oneEntity (key x01) 5)) 15
          (key x01)) 22 (key x01))
    (key x01) 5 7 (owner x0a) 10) as Htwice.
  cbv zeta in Htwice. rewrite Htwice.
  - split; [reflexivity|]. vm_compute. reflexivity.
  - vm_compute. reflexivity.
  - reflexivity.
  - reflexivity.
  - reflexivity.
  - reflexivity.
Defined.

Lemma Store_writes_before_scheduling_witness :
  let emd := {| Owner := owner x0a; ExpiresAtBlock := 10 |} in
  Store empty (key x01) (owner x0a) emd [] = (oneEntity, Ok tt)
  /\ GetEntityMetaData oneEntity (key x01) = Ok emd.
Proof.
  apply (Store_writes_before_scheduling (S := MemDB) empty oneEntity
           (key x01) (owner x0a)
           {| Owner := owner x0a; ExpiresAtBlock := 10 |} [] (Ok tt)).
  - reflexivity.
  - cbn. lia.
  - reflexivity.
  - vm_compute. reflexivity.
Defined.

Lemma Store_then_Delete_witness :
  let emd := {| Owner := owner x0a; ExpiresAtBlock := 10 |} in
  snd (Store empty (key x01) (owner x0a) emd []) = Ok tt
  /\ Delete (fst (Store empty (key x01) (owner x0a) emd [])) (key x01)
     = (SetState (entityexpiration.Remove oneEntity 10 (key x01))
          ArkivProcessorAddress (metaSlot (key x01)) zeroHash,
        Ok (owner x0a)).
Proof.
  apply (Store_then_Delete (S := MemDB) empty oneEntity
           (entityexpiration.Remove oneEntity 10 (key x01))
           (key x01) (owner x0a)
           {| Owner := owner x0a; ExpiresAtBlock := 10 |} []).
  - reflexivity.
  - cbn. lia.
  - reflexivity.
  - vm_compute. reflexivity.
  - reflexivity.
Defined.

End EntityStoreMoreExamples.

(** * More on the housekeeping sweep *)

Section HousekeepingMore.
Import types entity housekeepingtx sweeping dbevents derived.
Context `{External} `{Codec} {S : Type} `{StateAccess S} `{ExpirationIndex S}.

(** X12. The topic that carries the owner of an expired entity is a
    32-byte word, twelve zero bytes followed by the address, and
    [BytesToAddress] recovers the address from it. *)
Theorem addressToHash_round_trip (a : Address) :
  is_address a ->
  is_hash (addressToHash a)
  /\ addressToHash a = replicate 12 x00 ++ a
  /\ BytesToAddress (addressToHash a) = a.
Proof.
  unfold is_address, AddressLength. intros Ha.
  do 21 (destruct a as [|? a]; try discriminate Ha).
  by repeat split.
Qed.

Lemma BytesToHash_hash (h : Hash) : is_hash h -> BytesToHash (take 32 h) = h.
Proof.
  unfold is_hash, HashLength. intros Hh.
  do 33 (destruct h as [|? h]; try discriminate Hh).
  reflexivity.
Qed.

Lemma expiredLog_isExpirationLog (blockNumber : Z) (key : Hash)
    (owner : Address) :
  is_hash key ->
  isExpirationLog (expiredLog blockNumber key owner) = true.
Proof.
  intros Hk. unfold isExpirationLog, expiredLog. cbn [Topics LogData].
  rewrite bool_decide_eq_true_2 by done.
  rewrite bool_decide_eq_true_2; [done|].
  by rewrite Hk.
Qed.

(** The logs of a sweep are the expiration events of its keys. *)
Lemma deletesInOrder_expiredLogs (blockNumber : Z) (st st' : S)
    (keys : list Hash) (logs : list Log) :
  deletesInOrder blockNumber st keys st' logs ->
  Forall2 (fun key log => exists owner,
                            log = expiredLog blockNumber key owner) keys logs.
Proof.
  induction 1 as [|st st1 st2 key md keys logs _ _ _ IH]; constructor.
  - by exists (Owner md).
  - done.
Qed.

Lemma expireOperation_expiredLogs (blockNumber : Z) (keys : list Hash)
    (logs : list Log) :
  Forall2 (fun key log => exists owner,
                            log = expiredLog blockNumber key owner) keys logs ->
  Forall is_hash keys ->
  forall base : nat,
    imap (fun j log => expireOperation ((base + j)%nat, log)) logs
    = imap (fun j key => withExpire (operation 0 (Z.of_nat (base + j))) key)
           keys.
Proof.
  induction 1 as [|key log keys logs (owner & ->) _ IH]; intros Hkeys base;
    [done|].
  apply Forall_cons in Hkeys as [Hkey Hkeys].
  rewrite !imap_cons. f_equal.
  - unfold expireOperation. cbn [fst snd expiredLog LogData].
    by rewrite BytesToHash_hash.
  - etransitivity; [|etransitivity; [exact (IH Hkeys (Datatypes.S base))|]];
      apply imap_ext; intros j x _; cbn; do 3 f_equal; lia.
Qed.

(** X13. The sweep and the derivation agree: when the logs of the first
    receipt of a block are those that a sweep returned for the 32-byte keys
    it deleted, the block derives to one Expire operation per deleted key,
    in the order of deletion, with TxIndex 0, OpIndex 0, 1, 2, ... and the
    key itself, followed by operations that are not Expire operations. *)
Theorem sweep_logs_derive_to_expire_operations (blockNumber : Z) (st st' : S)
    (keys : list Hash) (logs : list Log) (rawBlock : Block) (status : Z)
    (rest : list Receipt) (bl : events.Block) :
  deletesInOrder blockNumber st keys st' logs ->
  Forall is_hash keys ->
  blockToEvents rawBlock ({| Status := status; Logs := logs |} :: rest)
    = Ok bl ->
  exists others,
    events.Operations bl
    = imap (fun j key => withExpire (operation 0 (Z.of_nat j)) key) keys
      ++ others
    /\ Forall (fun op => events.Expire op = None) others.
Proof.
  intros Hsweep Hkeys Hbl.
  destruct (blockToEvents_operations _ _ _ _ Hbl)
    as (_ & others & -> & _ & _ & Hall).
  exists others. split; [|done]. f_equal. cbn [Logs].
  apply deletesInOrder_expiredLogs in Hsweep.
  unfold expirationLogs. rewrite filter_Forall; last first.
  { apply Forall_forall. intros [j log] Hin.
    unfold indexed in Hin.
    apply elem_of_lookup_imap in Hin as (j' & log' & [= -> ->] & Hlog).
    destruct (Forall2_lookup_r _ _ _ _ _ Hsweep Hlog)
      as (key & Hkey & owner & ->).
    cbn [snd]. apply expiredLog_isExpirationLog.
    rewrite Forall_forall in Hkeys. apply Hkeys.
    by eapply list_elem_of_lookup_2. }
  unfold indexed. rewrite fmap_imap.
  etransitivity;
    [|etransitivity;
      [exact (expireOperation_expiredLogs blockNumber keys logs Hsweep
                Hkeys 0)|]];
    by apply imap_ext.
Qed.

End HousekeepingMore.

Section HousekeepingMoreExamples.
Import types entity housekeepingtx sweeping dbevents derived memory examples.

Lemma addressToHash_round_trip_witness :
  is_hash (addressToHash (owner x0a))
  /\ addressToHash (owner x0a) = replicate 12 x00 ++ owner x0a
  /\ BytesToAddress (addressToHash (owner x0a)) = owner x0a.
Proof.
  apply addressToHash_round_trip. reflexivity.
Defined.

Lemma sweep_logs_derive_to_expire_operations_witness :
  exists bl,
    blockToEvents (emptyBlock 10)
      [ {| Status := ReceiptStatusSuccessful;
           Logs := [expiredLog 10 (key x02) (owner x0b);
                    expiredLog 10 (key x01) (owner x0a)] |} ] = Ok bl
    /\ exists others,
        events.Operations bl
        = imap (fun j key => withExpire (operation 0 (Z.of_nat j)) key)
               [key x02; key x01]
          ++ others
        /\ Forall (fun op => events.Expire op = None) others.
Proof.
  eexists. split; [vm_compute; reflexivity|].
  apply (sweep_logs_derive_to_expire_operations (S := MemDB) 10 twoEntities
           (fst (Delete (fst (Delete twoEntities (key x02))) (key x01)))
           [key x02; key x01]
           [expiredLog 10 (key x02) (owner x0b);
            expiredLog 10 (key x01) (owner x0a)]
           (emptyBlock 10) ReceiptStatusSuccessful []).
  - apply (deletes_cons 10 twoEntities
             (fst (Delete twoEntities (key x02)))
             (fst (Delete (fst (Delete twoEntities (key x02))) (key x01)))
             (key x02) {| Owner := owner x0b; ExpiresAtBlock := 10 |}
             [key x01] [expiredLog 10 (key x01) (owner x0a)]).
    + vm_compute. reflexivity.
    + vm_compute. reflexivity.
    + apply (deletes_cons 10 (fst (Delete twoEntities (key x02)))
               (fst (Delete (fst (Delete twoEntities (key x02))) (key x01)))
               (fst (Delete (fst (Delete twoEntities (key x02))) (key x01)))
               (key x01) {| Owner := owner x0a; ExpiresAtBlock := 10 |}
               [] []).
      * vm_compute. reflexivity.
      * vm_compute. reflexivity.
      * apply deletes_nil.
  - repeat constructor.
  - vm_compute. reflexivity.
Defined.

End HousekeepingMoreExamples.

(** * More on the derivation of operations *)

Section DerivationMore.
Import types dbevents derived helpers.
Context `{External} `{Codec}.

Lemma createdEntities_from_spec (logs : list Log) :
  forall (entities ks : list Hash),
    createdEntities_from logs entities = Ok ks
    <-> Forall topicsSuffice logs /\ ks = entities ++ omap createdKey logs.
Proof.
  induction logs as [|log logs IH]; intros entities ks; cbn [createdEntities_from].
  - cbn. rewrite app_nil_r. split.
    + intros [= <-]. split; [constructor|done].
    + by intros [_ ->].
  - rewrite Forall_cons. cbn [omap list_omap].
    unfold topicsSuffice at 1, createdKey at 1.
    destruct (Topics log) as [|topic0 [|entityKey more]].
    + split; [done|]. by intros [[[] _] _].
    + case_bool_decide as Hc.
      * split; [done|]. by intros [[? _] _].
      * rewrite IH. tauto.
    + case_bool_decide as Hc.
      * rewrite IH, <- app_assoc. cbn. tauto.
      * rewrite IH. tauto.
Qed.

(** X14. [createdEntities] returns, in log order, the second topic of each
    log of the receipt whose first topic is the creation topic; it does so
    exactly when every log has a first topic, and a second one when the
    first is the creation topic, and panics on an index out of range
    otherwise. *)
Theorem createdEntities_spec (r : Receipt) :
  (forall ks,
     createdEntities r = Ok ks
     <-> Forall topicsSuffice (Logs r) /\ ks = omap createdKey (Logs r))
  /\ (~ Forall topicsSuffice (Logs r) -> createdEntities r = Panic).
Proof.
  split.
  - intros ks. unfold createdEntities. by rewrite createdEntities_from_spec.
  - intros Hbad. unfold createdEntities.
    destruct (createdEntities_from (Logs r) []) as [ks| |] eqn:Hce.
    + apply createdEntities_from_spec in Hce as [Hall _]. done.
    + exfalso. clear Hbad. revert Hce. generalize (@nil Hash).
      induction (Logs r) as [|log logs IH]; intros entities; cbn; [done|].
      repeat case_match; try done; apply IH.
    + done.
Qed.

Lemma stringAnnotationsToMap_from_lookup
    (annotations : list storagetx.StringAnnotation) (k : string) :
  forall annotationsMap : gmap string string,
    stringAnnotationsToMap_from annotationsMap annotations !! k
    = match last (filter (fun a => storagetx.SKey a = k) annotations) with
      | Some a => Some (storagetx.SValue a)
      | None => annotationsMap !! k
      end.
Proof.
  induction annotations as [|a annotations IH]; intros annotationsMap; [done|].
  cbn [stringAnnotationsToMap_from]. rewrite IH, filter_cons.
  destruct (decide (storagetx.SKey a = k)) as [<-|Hne].
  - rewrite last_cons. destruct (last _); [done|].
    by rewrite lookup_insert_eq.
  - destruct (last _); [done|]. by rewrite lookup_insert_ne.
Qed.

(** X15. In the map that [stringAnnotationsToMap] builds, a key is bound
    to the value of the last annotation that carries it, and is unbound
    when no annotation carries it. *)
Theorem stringAnnotationsToMap_lookup
    (annotations : list storagetx.StringAnnotation) (k : string) :
  stringAnnotationsToMap annotations !! k
  = storagetx.SValue
      <$> last (filter (fun a => storagetx.SKey a = k) annotations).
Proof.
  unfold stringAnnotationsToMap. rewrite stringAnnotationsToMap_from_lookup.
  by destruct (last _).
Qed.

Lemma numericAnnotationsToMap_from_lookup
    (annotations : list storagetx.NumericAnnotation) (k : string) :
  forall annotationsMap : gmap string Z,
    numericAnnotationsToMap_from annotationsMap annotations !! k
    = match last (filter (fun a => storagetx.NKey a = k) annotations) with
      | Some a => Some (storagetx.NValue a)
      | None => annotationsMap !! k
      end.
Proof.
  induction annotations as [|a annotations IH]; intros annotationsMap; [done|].
  cbn [numericAnnotationsToMap_from]. rewrite IH, filter_cons.
  destruct (decide (storagetx.NKey a = k)) as [<-|Hne].
  - rewrite last_cons. destruct (last _); [done|].
    by rewrite lookup_insert_eq.
  - destruct (last _); [done|]. by rewrite lookup_insert_ne.
Qed.

(** X16. The same for [numericAnnotationsToMap]: a key is bound to the
    value of the last numeric annotation that carries it. *)
Theorem numericAnnotationsToMap_lookup
    (annotations : list storagetx.NumericAnnotation) (k : string) :
  numericAnnotationsToMap annotations !! k
  = storagetx.NValue
      <$> last (filter (fun a => storagetx.NKey a = k) annotations).
Proof.
  unfold numericAnnotationsToMap. rewrite numericAnnotationsToMap_from_lookup.
  by destruct (last _).
Qed.

(** X17. The five loops over the operations of one storage transaction:
    when the receipt holds at least as many creation keys as the
    transaction has Creates, they succeed and append to the operation
    list one operation per element of the five lists of the transaction,
    as many as its operation count; when the receipt holds fewer creation
    keys, they panic on an index out of range. *)
Theorem transactionOperations_count (i : nat) (from : Address)
    (atx : storagetx.ArkivTransaction) (created : list Hash)
    (ops : list events.Operation) :
  ((length (storagetx.Create atx) <= length created)%nat ->
   exists new,
     transactionOperations i from atx created ops = Ok (ops ++ new)
     /\ length new = storagetx.operationCount atx)
  /\ ((length created < length (storagetx.Create atx))%nat ->
      transactionOperations i from atx created ops = Panic).
Proof.
  rewrite transactionOperations_spec. split.
  - intros Hle. rewrite decide_True by done.
    exists (operationsOf i from atx created). split; [done|].
    unfold operationsOf, storagetx.operationCount.
    rewrite !length_app, !length_imap, length_zip_with_l by done. lia.
  - intros Hlt. by rewrite decide_False by lia.
Qed.

Lemma transactionLoop_Ok_steps (rawReceipts : list Receipt)
    (transactions : list Transaction) :
  forall (i : nat) (ops ops' : list events.Operation),
    transactionLoop i transactions rawReceipts ops = Ok ops' ->
    forall (j : nat) (transaction : Transaction),
      transactions !! j = Some transaction ->
      is_Ok (transactionStep (i + j) transaction rawReceipts) = true.
Proof.
  induction transactions as [|tx rest IH]; intros i ops ops' Hloop j t Hj;
    [done|].
  rewrite transactionLoop_cons in Hloop.
  destruct (transactionStep i tx rawReceipts) as [new| |] eqn:Hstep;
    [|done..].
  destruct j as [|j].
  - injection Hj as <-. by rewrite Nat.add_0_r, Hstep.
  - replace (i + Datatypes.S j)%nat with (Datatypes.S i + j)%nat by lia.
    by eapply IH.
Qed.

(** X18. What a successful derivation implies about a transaction of the
    block that is addressed to the storage processor. Either the block
    came with an empty receipt list, and then it derived to no operation
    at all, the transaction not being looked at; or the transaction has a
    receipt at its index, and when that receipt reports success the
    payload decodes, the sender is recovered, the creation keys of the
    receipt are read without panic and there are at least as many of them
    as the transaction has Creates. *)
Theorem blockToEvents_Ok_requirements (rawBlock : Block)
    (rawReceipts : list Receipt) (bl : events.Block) (i : nat)
    (transaction : Transaction) :
  blockToEvents rawBlock rawReceipts = Ok bl ->
  Transactions rawBlock !! i = Some transaction ->
  To transaction = Some ArkivProcessorAddress ->
  (rawReceipts = [] /\ events.Operations bl = [])
  \/ exists receipt,
       rawReceipts !! i = Some receipt
       /\ (Status receipt = ReceiptStatusSuccessful ->
           exists atx from created,
             UnpackArkivTransaction (Data transaction) = Ok atx
             /\ Sender transaction = Ok from
             /\ createdEntities receipt = Ok created
             /\ (length (storagetx.Create atx) <= length created)%nat).
Proof.
  intros Hbl Hi Hto. unfold blockToEvents in Hbl.
  destruct rawReceipts as [|firstReceipt rest];
    [left; by injection Hbl as <-|right].
  destruct (transactionLoop 0 _ _ _) as [ops| |] eqn:Hloop; [|done..].
  pose proof (transactionLoop_Ok_steps _ _ _ _ _ Hloop i transaction Hi)
    as Hstep.
  cbn [Nat.add] in Hstep. unfold transactionStep in Hstep.
  rewrite Hto in Hstep.
  rewrite bool_decide_eq_false_2 in Hstep by (by intros []).
  destruct ((firstReceipt :: rest) !! i) as [receipt|]; [|done].
  exists receipt. split; [done|]. intros Hst.
  rewrite bool_decide_eq_false_2 in Hstep by (by intros []).
  destruct (UnpackArkivTransaction _) as [atx| |]; [|done..].
  destruct (Sender _) as [from| |]; [|done..].
  destruct (createdEntities receipt) as [created| |]; [|done..].
  case_decide; [|done]. by exists atx, from, created.
Qed.

Lemma transactionLoop_no_storage_transaction (rawReceipts : list Receipt)
    (transactions : list Transaction) :
  Forall (fun transaction => To transaction <> Some ArkivProcessorAddress)
         transactions ->
  forall (i : nat) (ops : list events.Operation),
    transactionLoop i transactions rawReceipts ops = Ok ops.
Proof.
  induction 1 as [|tx rest Hto _ IH]; intros i ops; [done|].
  cbn [transactionLoop]. destruct (To tx) as [to|]; [|apply IH].
  rewrite bool_decide_eq_true_2 by congruence. apply IH.
Qed.

(** X19. A block none of whose transactions is addressed to the storage
    processor always derives, whatever its payloads, signatures and
    receipts are: to its number and the Expire operations of its first
    receipt, or to no operation when it has no receipt. *)
Theorem blockToEvents_no_storage_transaction (rawBlock : Block)
    (rawReceipts : list Receipt) :
  Forall (fun transaction => To transaction <> Some ArkivProcessorAddress)
         (Transactions rawBlock) ->
  blockToEvents rawBlock rawReceipts
  = Ok {| events.Number := NumberU64 rawBlock;
          events.Operations :=
            match rawReceipts with
            | [] => []
            | firstReceipt :: _ =>
                expireOperation <$> expirationLogs (Logs firstReceipt)
            end |}.
Proof.
  intros Hto. unfold blockToEvents.
  destruct rawReceipts as [|firstReceipt rest]; [done|].
  rewrite transactionLoop_no_storage_transaction by done.
  by rewrite expireLoop_spec.
Qed.

(** The loop over the transactions stops at the first transaction whose
    step fails, with the result of that step. *)
Lemma transactionLoop_fails_at_first (rawReceipts : list Receipt)
    (before : list Transaction) (tx : Transaction)
    (after : list Transaction) :
  forall (i : nat) (ops : list events.Operation),
    (forall (j : nat) (t : Transaction),
       before !! j = Some t ->
       is_Ok (transactionStep (i + j) t rawReceipts) = true) ->
    transactionLoop i (before ++ tx :: after) rawReceipts ops
    = match transactionStep (i + length before) tx rawReceipts with
      | Ok new =>
          match transactionLoop i before rawReceipts ops with
          | Ok ops =>
              transactionLoop (Datatypes.S (i + length before)) after
                rawReceipts (ops ++ new)
          | r => r
          end
      | Err err => Err err
      | Panic => Panic
      end.
Proof.
  induction before as [|t before IH]; intros i ops Hbefore.
  - cbn [app length transactionLoop]. rewrite Nat.add_0_r.
    apply transactionLoop_cons.
  - cbn [app length]. rewrite !transactionLoop_cons.
    pose proof (Hbefore 0%nat t eq_refl) as Ht. rewrite Nat.add_0_r in Ht.
    destruct (transactionStep i t rawReceipts) as [new| |]; [|done..].
    rewrite (IH (Datatypes.S i)).
    + by replace (Datatypes.S i + length before)%nat
        with (i + Datatypes.S (length before))%nat by lia.
    + intros j t' Hj.
      replace (Datatypes.S i + j)%nat with (i + Datatypes.S j)%nat by lia.
      by apply Hbefore.
Qed.

(** X20. The derivation of a block fails as a whole on the first payload
    that does not decode: when the transactions before [tx] are skipped or
    derive, and [tx] is addressed to the storage processor with a receipt
    that reports success and a payload that [UnpackArkivTransaction]
    refuses, [blockToEvents] returns that error, wrapped, and no block,
    whatever the transactions after [tx] are. *)
Theorem blockToEvents_unpack_error (rawBlock : Block)
    (rawReceipts : list Receipt) (before : list Transaction)
    (tx : Transaction) (after : list Transaction) (receipt : Receipt)
    (err : error) :
  Transactions rawBlock = before ++ tx :: after ->
  (forall (j : nat) (t : Transaction),
     before !! j = Some t ->
     is_Ok (transactionStep j t rawReceipts) = true) ->
  To tx = Some ArkivProcessorAddress ->
  rawReceipts !! length before = Some receipt ->
  Status receipt = ReceiptStatusSuccessful ->
  UnpackArkivTransaction (Data tx) = Err err ->
  blockToEvents rawBlock rawReceipts
  = Err (Wrapf "failed to unpack arkiv transaction: %w" [] err).
Proof.
  intros Htxs Hbefore Hto Hreceipt Hstatus Hunpack. unfold blockToEvents.
  destruct rawReceipts as [|firstReceipt rest]; [done|].
  rewrite Htxs, transactionLoop_fails_at_first by done.
  cbn [Nat.add]. unfold transactionStep.
  rewrite Hto, bool_decide_eq_false_2 by (by intros []).
  rewrite Hreceipt, bool_decide_eq_false_2 by (by intros []).
  by rewrite Hunpack.
Qed.

End DerivationMore.

Section DerivationMoreExamples.
Import types dbevents derived helpers memory examples chain.

Lemma blockToEvents_Ok_requirements_witness :
  exists bl,
    blockToEvents block7 receipts7 = Ok bl
    /\ ((receipts7 = [] /\ events.Operations bl = [])
        \/ exists receipt,
             receipts7 !! 1%nat = Some receipt
             /\ (Status receipt = ReceiptStatusSuccessful ->
                 exists atx from created,
                   UnpackArkivTransaction [x01] = Ok atx
                   /\ Sender {| To := Some ArkivProcessorAddress;
                                Data := [x01]; Rest := owner x0a |} = Ok from
                   /\ createdEntities receipt = Ok created
                   /\ (length (storagetx.Create atx)
                       <= length created)%nat)).
Proof.
  destruct (blockToEvents block7 receipts7) as [bl| |] eqn:Hbl;
    [|vm_compute in Hbl; discriminate..].
  exists bl. split; [reflexivity|].
  apply (blockToEvents_Ok_requirements block7 receipts7 bl 1
           {| To := Some ArkivProcessorAddress; Data := [x01];
              Rest := owner x0a |} Hbl).
  - reflexivity.
  - reflexivity.
Defined.

Lemma blockToEvents_no_storage_transaction_witness :
  blockToEvents foreignBlock
    [ {| Status := ReceiptStatusFailed;
         Logs := [otherLog; expiredLogOf (key x05) (owner x0c)] |} ]
  = Ok {| events.Number := 8;
          events.Operations :=
            expireOperation
              <$> expirationLogs
                    [otherLog; expiredLogOf (key x05) (owner x0c)] |}.
Proof.
  apply (blockToEvents_no_storage_transaction foreignBlock
           [ {| Status := ReceiptStatusFailed;
                Logs := [otherLog; expiredLogOf (key x05) (owner x0c)] |} ]).
  repeat constructor. vm_compute. discriminate.
Defined.

Lemma createdEntities_spec_witness :
  createdEntities {| Status := ReceiptStatusSuccessful;
                     Logs := [otherLog; createdLog (key x09)] |}
  = Ok [key x09].
Proof.
  destruct (createdEntities_spec
              {| Status := ReceiptStatusSuccessful;
                 Logs := [otherLog; createdLog (key x09)] |}) as [Hok _].
  apply Hok. split; [|reflexivity].
  constructor; [vm_compute; discriminate|].
  constructor; [exact I|constructor].
Defined.

Lemma transactionOperations_count_witness :
  (exists new,
     transactionOperations 1 (owner x0a) oneCreateOneUpdate [key x09] []
       = Ok ([] ++ new)
     /\ length new = storagetx.operationCount oneCreateOneUpdate)
  /\ transactionOperations 1 (owner x0a) oneCreateOneUpdate [] [] = Panic.
Proof.
  split.
  - destruct (transactionOperations_count 1 (owner x0a) oneCreateOneUpdate
                [key x09] []) as [Hok _].
    apply Hok. cbn. lia.
  - destruct (transactionOperations_count 1 (owner x0a) oneCreateOneUpdate
                [] []) as [_ Hpanic].
    apply Hpanic. cbn. lia.
Defined.

Lemma blockToEvents_unpack_error_witness :
  blockToEvents
    {| NumberU64 := 9; Time := 0; BlockHash := numberHash 9;
       Transactions :=
         Transactions foreignBlock ++ Transactions (undecodableBlock 9)
         ++ Transactions block7 |}
    receipts7
  = Err (Wrapf "failed to unpack arkiv transaction: %w" []
           (Errorf "undecodable payload" [])).
Proof.
  apply (blockToEvents_unpack_error _ receipts7
           (Transactions foreignBlock)
           {| To := Some ArkivProcessorAddress; Data := [xff]; Rest := [] |}
           (Transactions block7)
           {| Status := ReceiptStatusSuccessful;
              Logs := [createdLog (key x09)] |}).
  - reflexivity.
  - intros [|j] t Hj; [|done]. injection Hj as <-. vm_compute. reflexivity.
  - reflexivity.
  - reflexivity.
  - reflexivity.
  - reflexivity.
Defined.

End DerivationMoreExamples.

(** * More on the batch iterator *)

Section BatchIteratorMore.
Import types dbevents derived chain.
Context `{External} `{Codec} {DB CC : Type} `{ChainDB DB CC}.

Lemma heights_app (lastBlock : Z) (n m : nat) :
  heights lastBlock (n + m)
  = heights lastBlock n ++ heights (lastBlock + Z.of_nat n) m.
Proof.
  unfold heights. rewrite seq_app, fmap_app. f_equal. cbn [Nat.add].
  replace (seq n m) with (Nat.add n <$> seq 0 m)
    by (rewrite fmap_add_seq; f_equal; lia).
  rewrite <- list_fmap_compose.
  apply list_fmap_ext. intros _ i _. cbn. lia.
Qed.

(** The loop panics when, after heights that derive, it meets a height
    whose read panics. *)
Lemma readLoop_panic (db : DB) (chainConfig : CC) (lastBlock : Z)
    (bs : list events.Block) :
  forall (n : nat) (i : Z) (blocks : list events.Block),
    0 <= lastBlock -> 0 <= i ->
    lastBlock + i + Z.of_nat n < 2 ^ 64 ->
    Forall2 (derivesAt db chainConfig)
            (heights (lastBlock + i) (length bs)) bs ->
    (length bs < n)%nat ->
    readHeight db chainConfig (lastBlock + i + Z.of_nat (length bs) + 1)
      = Panic ->
    readLoop db chainConfig lastBlock n i blocks = Panic.
Proof.
  induction bs as [|b bs IH]; intros n i blocks Hl Hi Hn Hbs Hlt Hpanic.
  - destruct n as [|n]; [cbn in Hlt; lia|]. cbn [readLoop length] in *.
    rewrite (u64_small (lastBlock + i)) by lia.
    rewrite u64_small by lia.
    replace (lastBlock + i + Z.of_nat 0 + 1) with (lastBlock + i + 1)
      in Hpanic by lia.
    by rewrite Hpanic.
  - cbn [length] in Hbs, Hlt, Hpanic. rewrite heights_S in Hbs.
    apply Forall2_cons in Hbs as [[Hb _] Hbs].
    destruct n as [|n]; [lia|]. cbn [readLoop].
    rewrite (u64_small (lastBlock + i)) by lia.
    rewrite u64_small by lia. rewrite Hb.
    apply (IH n (i + 1)); try lia.
    + by replace (lastBlock + (i + 1)) with (lastBlock + i + 1) by lia.
    + rewrite <- Hpanic. f_equal. lia.
Qed.

(** X21. When, in the gap of a pass, the heights before [k] derive and at
    [k] the canonical hash is there while its block is not, the pass
    panics: the blocks already read are not yielded and the iterator does
    not go on. The block read is dereferenced before it is compared with
    nil. *)
Theorem pass_panics_on_missing_block (db : DB) (chainConfig : CC)
    (lastBlock head : Z) (blocks : list events.Block) :
  let k := lastBlock + Z.of_nat (length blocks) + 1 in
  0 <= lastBlock -> lastBlock < head < 2 ^ 64 ->
  k <= Z.min head (lastBlock + 100) ->
  Forall2 (derivesAt db chainConfig)
          (heights lastBlock (length blocks)) blocks ->
  ReadCanonicalHash db k <> zeroHash ->
  ReadBlock db (ReadCanonicalHash db k) k = None ->
  pass db chainConfig lastBlock head = PassPanic.
Proof.
  intros k Hl Hh Hk Hbs Hhash Hblock. unfold pass.
  rewrite readBatch_gap by done.
  rewrite (readLoop_panic db chainConfig lastBlock blocks);
    [done|done|lia|unfold k in Hk; lia| |unfold k in Hk; lia|].
  - by replace (lastBlock + 0) with lastBlock by lia.
  - replace (lastBlock + 0 + Z.of_nat (length blocks) + 1) with k
      by (unfold k; lia).
    by apply readHeight_missing_block.
Qed.

(** A derived block carries the number of the raw block. *)
Lemma blockToEvents_Number (rawBlock : Block) (rawReceipts : list Receipt)
    (b : events.Block) :
  blockToEvents rawBlock rawReceipts = Ok b ->
  events.Number b = NumberU64 rawBlock.
Proof.
  unfold blockToEvents. destruct rawReceipts as [|firstReceipt rest].
  - by intros [= <-].
  - destruct (transactionLoop _ _ _ _) as [ops| |]; [|done..].
    by intros [= <-].
Qed.

(** X22. On a database in which a block carries the number of its height,
    a batch that one pass yields holds n blocks numbered lastBlock + 1,
    ..., lastBlock + n in this order, with 1 <= n <= 100 and
    lastBlock + n <= head, and the new lastBlock is lastBlock + n. *)
Theorem pass_yield_numbers (db : DB) (chainConfig : CC) (lastBlock head : Z)
    (batch : events.BlockBatch) (lastBlock' : Z) :
  0 <= lastBlock -> head < 2 ^ 64 ->
  numbersMatch db chainConfig ->
  pass db chainConfig lastBlock head = PassYield batch lastBlock' ->
  let n := length (events.Blocks batch) in
  (1 <= n <= 100)%nat
  /\ lastBlock' = lastBlock + Z.of_nat n
  /\ lastBlock' <= head
  /\ events.Number <$> events.Blocks batch = heights lastBlock n.
Proof.
  intros Hl Hh Hmatch Hpass n.
  destruct (pass_yield_sound _ _ _ _ _ _ Hl Hh Hpass)
    as (Hlen & Hle & Hbs & Hlast).
  assert (Hnum : events.Number <$> events.Blocks batch = heights lastBlock n).
  { symmetry. apply list_eq_Forall2, Forall2_fmap_r.
    eapply Forall2_impl; [exact Hbs|].
    intros k b Hb. symmetry. by apply Hmatch. }
  assert (Hlb : lastBlock' = lastBlock + Z.of_nat n).
  { rewrite <- fmap_last, Hnum in Hlast. unfold n in *.
    destruct (events.Blocks batch) as [|b bs]; [cbn in Hlen; lia|].
    cbn [length] in Hlast |- *. rewrite last_heights in Hlast.
    by injection Hlast as <-. }
  split; [lia|]. split; [done|]. split; [unfold n in *; lia|done].
Qed.

(** A height whose blocks and receipts are found and whose conversion
    returns an error ends the loop without a block. *)
Lemma readHeight_conversion_error (db : DB) (chainConfig : CC) (number : Z)
    (bl block : Block) (receipts : list Receipt) (err : error) :
  ReadCanonicalHash db number <> zeroHash ->
  ReadBlock db (ReadCanonicalHash db number) number = Some bl ->
  ReadReceipts db (ReadCanonicalHash db number) (NumberU64 bl) (Time bl)
    chainConfig = Some receipts ->
  ReadBlock db (BlockHash bl) (NumberU64 bl) = Some block ->
  blockToEvents block receipts = Err err ->
  readHeight db chainConfig number = Ok None.
Proof.
  intros Hz Hbl Hr Hblock Hb. unfold readHeight.
  by rewrite bool_decide_eq_false_2, Hbl, Hr, Hblock, Hb.
Qed.

(** X23. An error of [blockToEvents] never reaches the consumer: when, in
    the gap of a pass, the heights before [k] derive to [blocks] and the
    block of height [k] is found with its receipts but does not convert,
    the pass yields [blocks] as a batch and sets lastBlock to k - 1, or
    yields nothing when [k] is the first height of the gap. The error is
    dropped, and lastBlock stays below [k]. *)
Theorem pass_drops_conversion_error (db : DB) (chainConfig : CC)
    (lastBlock head : Z) (blocks : list events.Block)
    (bl block : Block) (receipts : list Receipt) (err : error) :
  let k := lastBlock + Z.of_nat (length blocks) + 1 in
  0 <= lastBlock -> lastBlock < head < 2 ^ 64 ->
  k <= Z.min head (lastBlock + 100) ->
  Forall2 (derivesAt db chainConfig)
          (heights lastBlock (length blocks)) blocks ->
  ReadCanonicalHash db k <> zeroHash ->
  ReadBlock db (ReadCanonicalHash db k) k = Some bl ->
  ReadReceipts db (ReadCanonicalHash db k) (NumberU64 bl) (Time bl)
    chainConfig = Some receipts ->
  ReadBlock db (BlockHash bl) (NumberU64 bl) = Some block ->
  blockToEvents block receipts = Err err ->
  pass db chainConfig lastBlock head
  = match blocks with
    | [] => PassContinue
    | _ => PassYield {| events.Blocks := blocks |} (k - 1)
    end.
Proof.
  intros k Hl Hh Hk Hbs Hz Hbl Hr Hblock Hb.
  rewrite (pass_blocks db chainConfig lastBlock head blocks); [| |done].
  - destruct blocks; [done|]. f_equal. unfold k. lia.
  - rewrite readBatch_gap by done.
    rewrite (readLoop_spec db chainConfig lastBlock blocks);
      [done|done|lia|unfold k in Hk; lia| |].
    + by replace (lastBlock + 0) with lastBlock by lia.
    + right. split; [unfold k in Hk; lia|].
      replace (lastBlock + 0 + Z.of_nat (length blocks) + 1) with k
        by (unfold k; lia).
      by eapply readHeight_conversion_error.
Qed.

(** X24. A pass hands nothing to the consumer and leaves lastBlock as it
    is in two cases only: the head taken is not above lastBlock, or the
    loop body returns at the first height, lastBlock + 1, without a
    block. *)
Theorem pass_continue_iff (db : DB) (chainConfig : CC) (lastBlock head : Z) :
  0 <= lastBlock -> head < 2 ^ 64 ->
  pass db chainConfig lastBlock head = PassContinue
  <-> head <= lastBlock
      \/ readHeight db chainConfig (lastBlock + 1) = Ok None.
Proof.
  intros Hl Hh. unfold pass, readBatch.
  case_bool_decide as Hle; [by split; [left|]|].
  rewrite u64_small by lia.
  destruct (Z.to_nat (Z.min 100 (head - lastBlock))) as [|n] eqn:Hn; [lia|].
  cbn [readLoop].
  replace (lastBlock + 0) with lastBlock by lia.
  rewrite (u64_small lastBlock) by lia. rewrite u64_small by lia.
  destruct (readHeight db chainConfig (lastBlock + 1))
    as [[b|]| |] eqn:Hread.
  - destruct (readLoop _ _ _ _ _ _) as [out| |] eqn:Hloop.
    + apply readLoop_sound in Hloop as (bs & -> & _); [|lia..].
      cbn [app]. rewrite last_cons.
      destruct (last bs); (split; [done|intros [?|?]; [lia|done]]).
    + split; [done|intros [?|?]; [lia|done]].
    + split; [done|intros [?|?]; [lia|done]].
  - cbn. split; [by right|done].
  - split; [done|intros [?|?]; [lia|done]].
  - split; [done|intros [?|?]; [lia|done]].
Qed.

(** X25. Across any number of passes, on databases in which a block
    carries the number of its height, the blocks of the batches handed to
    the consumer, taken in order, are those of the heights C + 1, C + 2,
    ... with no gap and no repetition; every batch holds between 1 and 100
    blocks; and the final lastBlock is the height of the last block
    handed over. *)
Theorem batchIterator_gapless (yield : events.BlockBatch -> bool)
    (wakeups : list (DB * CC * Z)) :
  forall (C : Z) (batches : list events.BlockBatch) (lastBlock : Z),
    0 <= C ->
    Forall (fun w => numbersMatch (fst (fst w)) (snd (fst w))
                     /\ snd w < 2 ^ 64) wakeups ->
    batchIterator yield C wakeups = Ok (batches, lastBlock) ->
    let blocks := concat (events.Blocks <$> batches) in
    events.Number <$> blocks = heights C (length blocks)
    /\ lastBlock = C + Z.of_nat (length blocks)
    /\ Forall (fun batch =>
                 (0 < length (events.Blocks batch) <= 100)%nat) batches.
Proof.
  induction wakeups as [|[[db chainConfig] head] wakeups IH];
    intros C batches lastBlock HC Hall.
  - cbn. intros [= <- <-]. cbn. split; [done|]. split; [lia|constructor].
  - apply Forall_cons in Hall as [[Hmatch Hhead] Hall]. cbn in Hmatch, Hhead.
    cbn [batchIterator].
    destruct (pass db chainConfig C head) as [| |batch lb] eqn:Hpass;
      [done|by apply IH|].
    destruct (pass_yield_sound _ _ _ _ _ _ HC Hhead Hpass)
      as (Hlen & Hle & Hbs & Hlast).
    assert (Hnum : events.Number <$> events.Blocks batch
                   = heights C (length (events.Blocks batch))).
    { symmetry. apply list_eq_Forall2, Forall2_fmap_r.
      eapply Forall2_impl; [exact Hbs|].
      intros k b Hb. symmetry. by apply Hmatch. }
    assert (Hlb : lb = C + Z.of_nat (length (events.Blocks batch))).
    { rewrite <- fmap_last, Hnum in Hlast.
      destruct (events.Blocks batch) as [|b bs]; [cbn in Hlen; lia|].
      cbn [length] in Hlast |- *. rewrite last_heights in Hlast.
      by injection Hlast as <-. }
    destruct (yield batch).
    + destruct (batchIterator yield lb wakeups) as [[batches' lb']| |] eqn:Hrest;
        [|done..].
      intros [= <- <-].
      destruct (IH lb batches' lb' ltac:(lia) Hall Hrest)
        as (Hnum' & Hlb' & Hall').
      cbn [fmap list_fmap concat]. cbv zeta.
      rewrite length_app, fmap_app, heights_app, Hnum, Hnum', <- Hlb.
      split; [done|]. split; [lia|]. by constructor.
    + intros [= <- <-]. cbn [fmap list_fmap concat]. cbv zeta.
      rewrite app_nil_r. split; [done|]. split; [done|].
      constructor; [done|constructor].
Qed.

(** X26. Nothing is produced after a batch that the consumer refused: in
    the sequence of batches handed over, a batch for which [yield] returned
    false is the last one. *)
Theorem batchIterator_stops_on_refusal (yield : events.BlockBatch -> bool)
    (wakeups : list (DB * CC * Z)) :
  forall (C : Z) (batches : list events.BlockBatch) (lastBlock : Z)
         (before after : list events.BlockBatch) (batch : events.BlockBatch),
    batchIterator yield C wakeups = Ok (batches, lastBlock) ->
    batches = before ++ batch :: after ->
    yield batch = false ->
    after = [].
Proof.
  induction wakeups as [|[[db chainConfig] head] wakeups IH];
    intros C batches lastBlock before after batch.
  - cbn. intros [= <- _] Hsplit. by destruct before.
  - cbn [batchIterator].
    destruct (pass db chainConfig C head) as [| |b lb]; [done|by apply IH|].
    destruct (yield b) eqn:Hy.
    + destruct (batchIterator yield lb wakeups) as [[batches' lb']| |] eqn:Hrest;
        [|done..].
      intros [= <- <-] Hsplit Hno.
      destruct before as [|b0 before].
      * injection Hsplit as -> _. congruence.
      * injection Hsplit as _ Hsplit. by eapply IH.
    + intros [= <- <-] Hsplit _.
      destruct before as [|b0 [|b1 before]]; [|done..].
      by injection Hsplit as _ <-.
Qed.

End BatchIteratorMore.

Section BatchIteratorMoreExamples.
Import types dbevents derived memory examples chain.

(** In the in-memory chain a block carries the number of its height. *)
Lemma memory_numbersMatch (top : Z) : numbersMatch top tt.
Proof.
  intros number b Hread.
  apply readHeight_Some in Hread as (bl & receipts & block & _ & Hbl & _
                                     & Hblock & Hb).
  apply blockToEvents_Number in Hb. rewrite Hb. clear Hb.
  cbn in Hbl. destruct (bool_decide _) in Hbl; [|done].
  injection Hbl as <-.
  cbn in Hblock. destruct (bool_decide _) in Hblock; [|done].
  by injection Hblock as <-.
Qed.

Lemma pass_yield_numbers_witness :
  exists batch lastBlock',
    pass (3 : Z) tt 0 2 = PassYield batch lastBlock'
    /\ (1 <= length (events.Blocks batch) <= 100)%nat
    /\ lastBlock' = 0 + Z.of_nat (length (events.Blocks batch))
    /\ lastBlock' <= 2
    /\ events.Number <$> events.Blocks batch
       = heights 0 (length (events.Blocks batch)).
Proof.
  eexists. eexists. split; [vm_compute; reflexivity|].
  apply (pass_yield_numbers (3 : Z) tt 0 2);
    [lia|lia|apply memory_numbersMatch|vm_compute; reflexivity].
Defined.

Lemma pass_panics_on_missing_block_witness :
  pass (H1 := hashAhead) (1 : Z) tt 0 2 = PassPanic.
Proof.
  apply (pass_panics_on_missing_block (H1 := hashAhead) (1 : Z) tt 0 2
           [derivedEmpty 1]).
  - lia.
  - lia.
  - cbn. lia.
  - constructor; [|constructor]. split; [vm_compute; reflexivity|reflexivity].
  - vm_compute. discriminate.
  - reflexivity.
Defined.

Lemma pass_drops_conversion_error_witness :
  pass (H1 := undecodableAhead) (1 : Z) tt 0 2
  = PassYield {| events.Blocks := [derivedEmpty 1] |} 1.
Proof.
  apply (pass_drops_conversion_error (H1 := undecodableAhead) (1 : Z) tt 0 2
           [derivedEmpty 1] (undecodableBlock 2) (undecodableBlock 2)
           [ {| Status := ReceiptStatusSuccessful; Logs := [] |} ]
           (Wrapf "failed to unpack arkiv transaction: %w" []
              (Errorf "undecodable payload" []))).
  - lia.
  - lia.
  - cbn. lia.
  - constructor; [|constructor]. split; [vm_compute; reflexivity|reflexivity].
  - vm_compute. discriminate.
  - reflexivity.
  - reflexivity.
  - reflexivity.
  - vm_compute. reflexivity.
Defined.

Lemma pass_continue_iff_witness :
  pass (5 : Z) tt 5 6 = PassContinue
  <-> 6 <= 5 \/ readHeight (5 : Z) tt (5 + 1) = Ok None.
Proof.
  apply (pass_continue_iff (5 : Z) tt 5 6); lia.
Defined.

Lemma batchIterator_gapless_witness :
  exists batches lastBlock,
    batchIterator (fun _ => true) 0 [(3, tt, 2); (3, tt, 3)]
      = Ok (batches, lastBlock)
    /\ events.Number <$> concat (events.Blocks <$> batches)
       = heights 0 (length (concat (events.Blocks <$> batches)))
    /\ lastBlock = 0 + Z.of_nat (length (concat (events.Blocks <$> batches)))
    /\ Forall (fun batch =>
                 (0 < length (events.Blocks batch) <= 100)%nat) batches.
Proof.
  eexists. eexists. split; [vm_compute; reflexivity|].
  apply (batchIterator_gapless (fun _ => true) [(3, tt, 2); (3, tt, 3)] 0).
  - lia.
  - repeat constructor; try apply memory_numbersMatch; cbn; lia.
  - vm_compute. reflexivity.
Defined.

Lemma batchIterator_stops_on_refusal_witness :
  exists batch lastBlock,
    batchIterator (fun _ => false) 0 [(3, tt, 2); (3, tt, 3)]
      = Ok ([batch], lastBlock)
    /\ @nil events.BlockBatch = [].
Proof.
  eexists. eexists. split; [vm_compute; reflexivity|].
  eapply (batchIterator_stops_on_refusal (fun _ => false)
            [(3, tt, 2); (3, tt, 3)] 0 _ _ []).
  - vm_compute. reflexivity.
  - reflexivity.
  - reflexivity.
Defined.

End BatchIteratorMoreExamples.
